(** * Stover_postprocessing: the DayCent post-processing pipeline

    A shallow embedding of [Stover_postprocess.py] and [constants.py].

    The script is a straight line of pandas statements over six tables read
    from CSV files, followed by the plotting helper [fips_mapping].  Each
    statement is embedded as a function from tables to tables, in the
    order of the script.

    Modelling choices.
    - A float64 cell is a [num]: an exact rational, one of the two
      infinities, or NaN (the pandas missing value).  Rounding, overflow
      and the sign of zero are outside the model.
    - A table is the list of its rows in row order.  A row carries its
      key columns ([fips], [stover_removal], [simyear]: integers and a
      string, never missing) and a finite map from the names of its float
      columns to their cells.
    - A statement that raises in Python ([KeyError] on a column that is not
      there, [ValueError] in [pivot]) returns [None]. *)

From Stdlib Require Import ZArith QArith Qcanon Qcabs Lia.
From stdpp Require Import base option strings sorting numbers gmap list.

Open Scope Z_scope.

(** ** Float cells *)

Inductive num : Type :=
  | Fin (q : Qc)
  | PInf
  | NInf
  | NaN.

Global Instance num_eq_dec : EqDecision num.
Proof. solve_decision. Defined.

Global Instance num_inhabited : Inhabited num := populate NaN.

Definition is_nan (x : num) : bool :=
  match x with NaN => true | _ => false end.

Definition nneg (x : num) : num :=
  match x with
  | Fin a => Fin (- a)
  | PInf => NInf
  | NInf => PInf
  | NaN => NaN
  end.

Definition nadd (x y : num) : num :=
  match x, y with
  | NaN, _ | _, NaN => NaN
  | Fin a, Fin b => Fin (a + b)
  | PInf, NInf | NInf, PInf => NaN
  | PInf, _ | _, PInf => PInf
  | NInf, _ | _, NInf => NInf
  end.

Definition nsub (x y : num) : num := nadd x (nneg y).

(** The infinity with the sign of [c], NaN when [c] is zero. *)
Definition inf_of_sign (c : comparison) : num :=
  match c with Gt => PInf | Lt => NInf | Eq => NaN end.

Definition nsign (x : num) : option comparison :=
  match x with
  | Fin a => Some (a ?= 0)%Qc
  | PInf => Some Gt
  | NInf => Some Lt
  | NaN => None
  end.

Definition sign_mul (c d : comparison) : comparison :=
  match c, d with
  | Eq, _ | _, Eq => Eq
  | Gt, Gt | Lt, Lt => Gt
  | Gt, Lt | Lt, Gt => Lt
  end.

Definition nmul (x y : num) : num :=
  match x, y with
  | Fin a, Fin b => Fin (a * b)
  | _, _ =>
      match nsign x, nsign y with
      | Some c, Some d => inf_of_sign (sign_mul c d)
      | _, _ => NaN
      end
  end.

(** Division as numpy does it on float64 arrays: a zero divisor raises
    nothing, the quotient is an infinity or NaN. *)
Definition ndiv (x y : num) : num :=
  match x, y with
  | NaN, _ | _, NaN => NaN
  | Fin a, Fin b =>
      if decide (b = 0%Qc) then inf_of_sign (a ?= 0)%Qc else Fin (a / b)
  | Fin _, _ => Fin 0
  | _, Fin b => match (b ?= 0)%Qc, x with
                | Lt, _ => nneg x
                | _, _ => x
                end
  | _, _ => NaN
  end.

(** A Python number literal, as the rational it denotes. *)
Definition lit (q : Q) : Qc := Q2Qc q.

(** ** constants.py *)

Module constants.
Definition ha_per_ACRE : Qc := lit 0.404686.
Definition kg_per_bu_CORN : Qc := lit 25.4012.
Definition kg_per_bu_SOY : Qc := lit 27.2.
Definition g_m2_to_Mg_ha : Qc := lit 0.01.
Definition g_m2_to_kg_ha : Qc := lit 10.0.
End constants.

(** ** Tables *)

(** The key columns of the five yearly tables. *)
Record ykey : Type := YKey {
  fips : Z;
  stover_removal : string;
  simyear : Z
}.

Global Instance ykey_eq_dec : EqDecision ykey.
Proof. solve_decision. Defined.

(** A row: its key columns and its float columns by name. *)
Record row (K : Type) : Type := Row {
  key : K;
  cols : gmap string num
}.
Arguments Row {K} _ _.
Arguments key {K} _.
Arguments cols {K} _.

Abbreviation DataFrame K := (list (row K)).

(** [df[c]] for a float column: [KeyError] when the column is not there. *)
Definition get_column {K} (c : string) (df : DataFrame K) : option (list num) :=
  mapM (λ r, cols r !! c) df.

(** [df[c] = vs]: the column is added, or overwritten, row by row. *)
Definition set_column {K} (c : string) (vs : list num) (df : DataFrame K)
  : DataFrame K :=
  zip_with (λ r v, Row (key r) (<[c := v]> (cols r))) df vs.

(** [df.drop(columns=[c], inplace=True)] for a float column that is there. *)
Definition drop_column {K} (c : string) (df : DataFrame K) : DataFrame K :=
  (λ r, Row (key r) (delete c (cols r))) <$> df.

(** [series * factor] *)
Definition scale (factor : Qc) (vs : list num) : list num :=
  (λ v, nmul v (Fin factor)) <$> vs.

(** ** Unit conversions (lines 81-97)

    [df[tgt] = df[src] * factor; df.drop(columns=[src], inplace=True)] *)
Definition unit_convert {K} (src tgt : string) (factor : Qc)
    (df : DataFrame K) : option (DataFrame K) :=
  vs ← get_column src df;
  Some (drop_column src (set_column tgt (scale factor vs) df)).

Definition corn_factor : Qc :=
  ((constants.kg_per_bu_CORN * lit 0.001) / constants.ha_per_ACRE)%Qc.
Definition soy_factor : Qc :=
  ((constants.kg_per_bu_SOY * lit 0.001) / constants.ha_per_ACRE)%Qc.

Definition convert_area : DataFrame Z → option (DataFrame Z) :=
  unit_convert "area_acres" "area_ha" constants.ha_per_ACRE.
Definition convert_corn : DataFrame ykey → option (DataFrame ykey) :=
  unit_convert "grainyield_bu_ac" "corn_yield_Mg_ha-1" corn_factor.
Definition convert_soy : DataFrame ykey → option (DataFrame ykey) :=
  unit_convert "grainyield_bu_ac" "soy_yield_Mg_ha-1" soy_factor.
Definition convert_stover : DataFrame ykey → option (DataFrame ykey) :=
  unit_convert "stover_dryyield_kgha" "stover_yield_Mg_ha-1" (lit 0.001).
Definition convert_soc : DataFrame ykey → option (DataFrame ykey) :=
  unit_convert "SOC_20cm_g_m2" "SOC_MgC_ha-1" constants.g_m2_to_Mg_ha.
Definition convert_n2o : DataFrame ykey → option (DataFrame ykey) :=
  unit_convert "N2O_gN_m2" "N2O_MgN_ha-1" constants.g_m2_to_Mg_ha.

(** ** Ordering of the key columns

    [sort_values] and [groupby] order rows by their key columns: integers by
    value, strings as Python compares [str], lexicographically by code
    point.  Several columns are compared lexicographically, left to right. *)

Class TotalCompare {A : Type} (cmp : A → A → comparison) : Prop := {
  cmp_eq : ∀ a b, cmp a b = Eq ↔ a = b;
  cmp_antisym : ∀ a b, cmp b a = CompOpp (cmp a b);
  cmp_lt_trans : ∀ a b c, cmp a b = Lt → cmp b c = Lt → cmp a c = Lt
}.

Definition lex (c d : comparison) : comparison :=
  match c with Eq => d | Lt => Lt | Gt => Gt end.

Definition pair_compare {A B} (cmpA : A → A → comparison)
    (cmpB : B → B → comparison) (x y : A * B) : comparison :=
  lex (cmpA x.1 y.1) (cmpB x.2 y.2).

(** The group key [(fips, stover_removal)]. *)
Definition gkey : Type := Z * string.

Definition gkey_compare : gkey → gkey → comparison :=
  pair_compare Z.compare String.compare.

Definition group_of (k : ykey) : gkey := (fips k, stover_removal k).

Definition ykey_compare (a b : ykey) : comparison :=
  lex (gkey_compare (group_of a) (group_of b)) (simyear a ?= simyear b).

Definition cmp_leb (c : comparison) : bool :=
  match c with Gt => false | _ => true end.

Definition ykey_leb (a b : ykey) : bool := cmp_leb (ykey_compare a b).

(** ** Annual SOC differences (lines 105-107) *)

(** [sort_values(["fips", "stover_removal", "simyear"])]: ascending and
    stable, rows with equal keys keep their order. *)
Fixpoint insert_row (r : row ykey) (l : DataFrame ykey) : DataFrame ykey :=
  match l with
  | [] => [r]
  | x :: l' =>
      if ykey_leb (key r) (key x) then r :: l else x :: insert_row r l'
  end.

Definition sort_values (df : DataFrame ykey) : DataFrame ykey :=
  foldr insert_row [] df.

(** [Series.diff()]: each cell minus the cell of the row before it, whatever
    that row is; the first cell has no predecessor and is NaN. *)
Fixpoint diff_from (prev : num) (vs : list num) : list num :=
  match vs with
  | [] => []
  | v :: vs' => nsub v prev :: diff_from v vs'
  end.

Definition diff (vs : list num) : list num :=
  match vs with
  | [] => []
  | v :: vs' => NaN :: diff_from v vs'
  end.

Definition first_year : Z := 2011.

Definition soc_annual_diff (soc_df : DataFrame ykey)
  : option (DataFrame ykey) :=
  let soc_df := sort_values soc_df in
  vs ← get_column "SOC_MgC_ha-1" soc_df;
  let soc_df := set_column "dSOC_MgC_ha-1" (diff vs) soc_df in
  Some (filter (λ r, simyear (key r) ≠ first_year) soc_df).

(** ** Aggregation (lines 114-118) *)

(** Distinct keys in ascending order, as [groupby] and [pivot] lay out the
    labels of an index. *)
Fixpoint insert_uniq {A} (cmp : A → A → comparison) (k : A) (l : list A)
  : list A :=
  match l with
  | [] => [k]
  | x :: l' =>
      match cmp k x with
      | Lt => k :: l
      | Eq => l
      | Gt => x :: insert_uniq cmp k l'
      end
  end.

Definition sort_uniq {A} (cmp : A → A → comparison) (l : list A) : list A :=
  foldr (insert_uniq cmp) [] l.

(** The group keys of [groupby], each once, in ascending order. *)
Definition group_keys (ks : list gkey) : list gkey :=
  sort_uniq gkey_compare ks.

Definition nsum (vs : list num) : num := foldr nadd (Fin 0) vs.

(** [mean()] of a group: missing cells are skipped, and a group with no
    cell left has a missing mean. *)
Definition mean (vs : list num) : num :=
  let xs := filter (λ v, is_nan v = false) vs in
  match xs with
  | [] => NaN
  | _ => ndiv (nsum xs) (Fin (Qc_of_Z (Z.of_nat (length xs))))
  end.

(** The cells of the rows of group [g], in row order. *)
Definition group_values (g : gkey) (kvs : list (gkey * num)) : list num :=
  snd <$> filter (λ kv, kv.1 = g) kvs.

(** [df[["fips", "stover_removal", c]].groupby(["fips", "stover_removal"]).mean()]:
    one row per group, indexed by the group key. *)
Definition groupby_mean (c : string) (df : DataFrame ykey)
  : option (DataFrame gkey) :=
  vs ← get_column c df;
  let kvs := zip ((λ r, group_of (key r)) <$> df) vs in
  Some ((λ g, Row g {[ c := mean (group_values g kvs) ]})
          <$> group_keys (fst <$> kvs)).

(** ** Merge (lines 120-124) *)

(** [pd.merge(left, right, on=["fips", "stover_removal"])]: the inner join,
    in the order of the left rows.  The float columns of the two sides have
    different names in every call of the script. *)
Definition merge (left right : DataFrame gkey) : DataFrame gkey :=
  l ← left;
  (λ r, Row (key l) (cols l ∪ cols r)) <$> filter (λ r, key r = key l) right.

Definition merge_all (corn_df soy_df stover_df soc_df n2o_df : DataFrame gkey)
  : DataFrame gkey :=
  let df := merge corn_df soy_df in
  let df := merge df stover_df in
  let df := merge df soc_df in
  merge df n2o_df.

(** Lines 114-124: the five means, then the four merges.  [reset_index]
    turns the index back into the key columns, which a [row] holds as its
    [key] in both cases. *)
Definition aggregate_and_merge
    (corn_df soy_df stover_df soc_df n2o_df : DataFrame ykey)
  : option (DataFrame gkey) :=
  corn ← groupby_mean "corn_yield_Mg_ha-1" corn_df;
  soy ← groupby_mean "soy_yield_Mg_ha-1" soy_df;
  stover ← groupby_mean "stover_yield_Mg_ha-1" stover_df;
  soc ← groupby_mean "dSOC_MgC_ha-1" soc_df;
  n2o ← groupby_mean "N2O_MgN_ha-1" n2o_df;
  Some (merge_all corn soy stover soc n2o).

(** ** Pivot and the relative columns (lines 131-141) *)

(** The float columns of the merged table, in the order of the merges. *)
Definition value_columns : list string :=
  ["corn_yield_Mg_ha-1"; "soy_yield_Mg_ha-1"; "stover_yield_Mg_ha-1";
   "dSOC_MgC_ha-1"; "N2O_MgN_ha-1"].

(** A row of the pivoted table: its [fips] label and its cells, by the two
    levels of the column label. *)
Record prow : Type := PRow {
  pindex : Z;
  pcells : gmap (string * string) num
}.

(** The pivoted table: its column labels and its rows.  A relative column
    [name] added later has the label [(name, "")]. *)
Record PivotFrame : Type := {
  pcolumns : list (string * string);
  prows : list prow
}.

(** The cell of [df] at row [(f, t)], column [v]; missing when [df] has no
    such row. *)
Definition cell (df : DataFrame gkey) (f : Z) (t v : string) : num :=
  match filter (λ r, key r = (f, t)) df with
  | r :: _ => default NaN (cols r !! v)
  | [] => NaN
  end.

(** The row of the pivoted table for county [f]: for each column
    [(v, t)], the cell of the merged table at row [(f, t)], column [v]. *)
Definition pivot_row (df : DataFrame gkey) (columns : list (string * string))
    (f : Z) : prow :=
  PRow f (list_to_map ((λ c, (c, cell df f c.2 c.1)) <$> columns)).

(** [df.pivot(index="fips", columns="stover_removal")]: one row per [fips],
    one column per value column and treatment that occurs in [df]; a
    [ValueError] when an [(fips, stover_removal)] pair occurs twice. *)
Definition pivot (values : list string) (df : DataFrame gkey)
  : option PivotFrame :=
  if decide (NoDup (key <$> df)) then
    let index := sort_uniq Z.compare ((λ r, (key r).1) <$> df) in
    let treatments := sort_uniq String.compare ((λ r, (key r).2) <$> df) in
    let columns := v ← values; t ← treatments; [(v, t)] in
    Some {| pcolumns := columns; prows := pivot_row df columns <$> index |}
  else None.

(** [pivoted_df[v][t]] ([pivoted_df[v]] alone when [t] is empty): a
    [KeyError] when the table has no column with that label. *)
Definition pget (v t : string) (p : PivotFrame) : option (list num) :=
  if decide ((v, t) ∈ pcolumns p)
  then mapM (λ r, pcells r !! (v, t)) (prows p)
  else None.

(** [pivoted_df[name] = series] *)
Definition passign (name : string) (vs : list num) (p : PivotFrame)
  : PivotFrame :=
  {| pcolumns := if decide ((name, "") ∈ pcolumns p) then pcolumns p
                 else pcolumns p ++ [(name, "")];
     prows := zip_with (λ r x, PRow (pindex r) (<[(name, "") := x]> (pcells r)))
                (prows p) vs |}.

(** [pivoted_df[name] = pivoted_df[v][t] - pivoted_df[v]["G"]] *)
Definition relative (name v t : string) (p : PivotFrame)
  : option PivotFrame :=
  a ← pget v t p;
  b ← pget v "G" p;
  Some (passign name (zip_with nsub a b) p).

(** Lines 135-141. *)
Definition relative_columns (p : PivotFrame) : option PivotFrame :=
  p ← relative "dSOC_G25S_relative" "dSOC_MgC_ha-1" "G25S" p;
  p ← relative "dSOC_G50S_relative" "dSOC_MgC_ha-1" "G50S" p;
  p ← relative "dSOC_G75S_relative" "dSOC_MgC_ha-1" "G75S" p;
  p ← relative "dN2O_G25S_relative" "N2O_MgN_ha-1" "G25S" p;
  p ← relative "dN2O_G50S_relative" "N2O_MgN_ha-1" "G50S" p;
  p ← relative "dN2O_G75S_relative" "N2O_MgN_ha-1" "G75S" p;
  a ← pget "dSOC_G25S_relative" "" p;
  b ← pget "stover_yield_Mg_ha-1" "G25S" p;
  Some (passign "dSOC_MgStover" (zip_with ndiv a b) p).

(** Lines 131-141. *)
Definition pivoted_df (df : DataFrame gkey) : option PivotFrame :=
  p ← pivot value_columns df;
  relative_columns p.

(** The cell of the pivoted table at row [f], column [(v, t)]. *)
Definition pcell (p : PivotFrame) (f : Z) (v t : string) : option num :=
  r ← head (filter (λ r, pindex r = f) (prows p));
  pcells r !! (v, t).

(** ** The choropleth helper (lines 159-195) *)

(** [np.linspace(start, stop, num)]: [num] samples, [start] first and
    [(stop - start) / (num - 1)] apart; a [ValueError] when [num] is
    negative. *)
Definition linspace (start stop : Qc) (n : Z) : option (list Qc) :=
  if decide (n < 0) then None
  else
    let step := ((stop - start) / Qc_of_Z (n - 1))%Qc in
    Some ((λ i, (start + Qc_of_Z (Z.of_nat i) * step)%Qc)
            <$> seq 0 (Z.to_nat n)).

(** What [fips_mapping] hands to [create_choropleth], as far as it computes
    it itself: the bin edges, the rounding flag and, for a divergent map,
    the points at which the colour map is sampled. *)
Record choropleth_args : Type := {
  binning_endpoints : list Qc;
  round_legend_values : bool;
  colorscale_points : option (list Qc)
}.

Definition fips_mapping (linspacing : Qc * Qc * Z) (divergent reverse : bool)
  : option choropleth_args :=
  let '(lo, hi, n) := linspacing in
  bin_list ← linspace lo hi n;
  let rounding := if decide (hi < lit 10)%Qc then false else true in
  colorscale ←
    (if divergent then
       pts ← linspace 0 1 (n + 1);
       Some (Some (if reverse then rev pts else pts))
     else Some None);
  Some {| binning_endpoints := bin_list;
          round_legend_values := rounding;
          colorscale_points := colorscale |}.

(** ** The script, top to bottom *)

(** The six tables read at lines 69-74. *)
Record inputs : Type := {
  area_csv : DataFrame Z;
  corn_csv : DataFrame ykey;
  soy_csv : DataFrame ykey;
  stover_csv : DataFrame ykey;
  soc_csv : DataFrame ykey;
  n2o_csv : DataFrame ykey
}.

(** The tables that the script has built when it reaches line 142. *)
Record outputs : Type := {
  area_df : DataFrame Z;
  df : DataFrame gkey;
  pivoted : PivotFrame
}.

(** Lines 81-141. *)
Definition postprocess (i : inputs) : option outputs :=
  area_df ← convert_area (area_csv i);
  corn_df ← convert_corn (corn_csv i);
  soy_df ← convert_soy (soy_csv i);
  stover_df ← convert_stover (stover_csv i);
  soc_df ← convert_soc (soc_csv i);
  n2o_df ← convert_n2o (n2o_csv i);
  soc_df ← soc_annual_diff soc_df;
  df ← aggregate_and_merge corn_df soy_df stover_df soc_df n2o_df;
  p ← pivoted_df df;
  Some {| area_df := area_df; df := df; pivoted := p |}.

(** ** Vocabulary of the statements *)

Global Instance row_eq_dec {K} `{EqDecision K} : EqDecision (row K).
Proof. solve_decision. Defined.

Global Instance prow_eq_dec : EqDecision prow.
Proof. solve_decision. Defined.

Global Instance PivotFrame_eq_dec : EqDecision PivotFrame.
Proof. solve_decision. Defined.

Global Instance choropleth_args_eq_dec : EqDecision choropleth_args.
Proof. solve_decision. Defined.

(** A converted row [r'] next to the row [r] it was computed from: same key
    columns, the source column gone, the target column the product, within
    the tolerance for a finite cell, and every other column as it was. *)
Definition converted {K} (src tgt : string) (factor : Qc) (r r' : row K)
  : Prop :=
  key r' = key r ∧
  cols r' !! src = None ∧
  (∃ v, cols r !! src = Some v ∧ cols r' !! tgt = Some (nmul v (Fin factor))) ∧
  (∀ q, cols r !! src = Some (Fin q) →
        ∃ t, cols r' !! tgt = Some (Fin t) ∧
             (Qcabs (t - q * factor) <= lit 1e-9)%Qc) ∧
  (∀ c, c ≠ src → c ≠ tgt → cols r' !! c = cols r !! c).

(** A conversion of the script, on any table that has the source column:
    it returns a table, row for row the converted input. *)
Definition converts {K} (convert : DataFrame K → option (DataFrame K))
    (src tgt : string) (factor : Qc) : Prop :=
  ∀ df, Forall (λ r, is_Some (cols r !! src)) df →
    ∃ df', convert df = Some df' ∧ Forall2 (converted src tgt factor) df df'.

(** Rows ordered by their keys. *)
Definition row_le (r1 r2 : row ykey) : Prop :=
  ykey_leb (key r1) (key r2) = true.

(** The rows of the group [g]. *)
Definition in_group (g : gkey) (r : row ykey) : Prop := group_of (key r) = g.

Global Instance in_group_dec g r : Decision (in_group g r).
Proof. unfold in_group. apply _. Defined.

(** The rows that line 107 keeps. *)
Definition not_first_year (r : row ykey) : Prop :=
  simyear (key r) ≠ first_year.

(** The SOC cell of a row of the converted SOC table. *)
Definition soc_value (r : row ykey) : num :=
  default NaN (cols r !! "SOC_MgC_ha-1").

Definition with_dSOC (d : num) (r : row ykey) : row ykey :=
  Row (key r) (<["dSOC_MgC_ha-1" := d]> (cols r)).

(** The rows [l] with their [dSOC_MgC_ha-1] cell: each row's SOC minus the
    SOC of the row before it, [prev] being the SOC before the first. *)
Fixpoint annotate (prev : num) (l : DataFrame ykey) : DataFrame ykey :=
  match l with
  | [] => []
  | r :: l' =>
      with_dSOC (nsub (soc_value r) prev) r :: annotate (soc_value r) l'
  end.

(** The SOC of the last row of [l], [prev] when there is none. *)
Definition last_value (prev : num) (l : DataFrame ykey) : num :=
  foldl (λ _ r, soc_value r) prev l.

(** Following the words of the specification: the rows of one group, in
    ascending year, each with the difference to the row before it in the
    group, and the first row of the group removed. *)
Definition differenced_group (rows : DataFrame ykey) : DataFrame ykey :=
  tail (annotate NaN rows).

(** A row of a yearly table with one float column. *)
Definition value_row (c : string) (f : Z) (t : string) (y : Z) (v : Q)
  : row ykey :=
  Row (YKey f t y) {[ c := Fin (lit v) ]}.

(** A row of the raw SOC table, in g/m2. *)
Definition raw_soc_row : Z → string → Z → Q → row ykey :=
  value_row "SOC_20cm_g_m2".

(** A row of the converted SOC table, in Mg/ha. *)
Definition soc_row : Z → string → Z → Q → row ykey :=
  value_row "SOC_MgC_ha-1".

(** A row of the differenced SOC table. *)
Definition dsoc_row (f : Z) (t : string) (y : Z) (soc dsoc : Q) : row ykey :=
  Row (YKey f t y)
    {[ "SOC_MgC_ha-1" := Fin (lit soc); "dSOC_MgC_ha-1" := Fin (lit dsoc) ]}.

(** The strict order of a comparison. *)
Definition cmp_lt {A} (cmp : A → A → comparison) (a b : A) : Prop :=
  cmp a b = Lt.

(** The cells of column [c] in the rows [rows], in row order. *)
Definition column_cells {K} (c : string) (rows : DataFrame K) : list num :=
  (λ r, default NaN (cols r !! c)) <$> rows.

(** The arithmetic mean of rationals. *)
Definition arith_mean (qs : list Qc) : Qc :=
  (foldr Qcplus 0 qs / Qc_of_Z (Z.of_nat (length qs)))%Qc.

(** A row of a yearly table as [groupby] sees it: its group and its cell
    in column [c]. *)
Definition kv_of (c : string) (r : row ykey) : gkey * num :=
  (group_of (key r), default NaN (cols r !! c)).

(** One row of a unit conversion. *)
Definition convert_row {K} (src tgt : string) (factor : Qc) (r : row K)
  : row K :=
  Row (key r)
    (delete src (<[tgt := nmul (default NaN (cols r !! src)) (Fin factor)]>
                   (cols r))).

(** A row of the raw corn table, in bu/acre. *)
Definition corn_row : Z → string → Z → Q → row ykey :=
  value_row "grainyield_bu_ac".

(** The four yields of the end-to-end scenario, in bu/acre. *)
Definition scenario_yields : list Qc := [lit 150; lit 160; lit 155; lit 158].

(** The corn yield that the scenario expects, in Mg/ha. *)
Definition scenario_corn_yield : Qc :=
  (arith_mean scenario_yields * lit 25.4012 * lit 0.001 / lit 0.404686)%Qc.

(** The bin edges and the rounding flag that [fips_mapping] builds from
    [(lo, hi, n)]: [n] edges, the [i]-th at [lo + i (hi - lo) / (n - 1)], so
    that the first is [lo], the last is [hi] and neighbours are one step
    apart; legend values rounded exactly when [hi] is at least 10. *)
Definition bins_spec (lo hi : Qc) (n : nat) (args : choropleth_args) : Prop :=
  let step := ((hi - lo) / Qc_of_Z (Z.of_nat n - 1))%Qc in
  length (binning_endpoints args) = n ∧
  (∀ i, (i < n)%nat →
     binning_endpoints args !! i = Some (lo + Qc_of_Z (Z.of_nat i) * step)%Qc) ∧
  ((1 ≤ n)%nat → head (binning_endpoints args) = Some lo) ∧
  ((2 ≤ n)%nat → last (binning_endpoints args) = Some hi) ∧
  (∀ i a b, binning_endpoints args !! i = Some a →
            binning_endpoints args !! S i = Some b → (b - a)%Qc = step) ∧
  (round_legend_values args = true ↔ (lit 10 <= hi)%Qc) ∧
  (round_legend_values args = false ↔ (hi < lit 10)%Qc).

(** The 21 edges from 2 to 4. *)
Definition edges_2_4_21 : list Qc :=
  lit <$> [2; 2.1; 2.2; 2.3; 2.4; 2.5; 2.6; 2.7; 2.8; 2.9; 3; 3.1; 3.2; 3.3;
           3.4; 3.5; 3.6; 3.7; 3.8; 3.9; 4]%Q.

(** A merged row [r] next to the rows of the five aggregated tables with
    its key: each of the five columns of [r] is the column of the table it
    came from, and [r] has no other column. *)
Definition merged_from (r r1 r2 r3 r4 r5 : row gkey) : Prop :=
  key r1 = key r ∧ key r2 = key r ∧ key r3 = key r ∧ key r4 = key r ∧
  key r5 = key r ∧
  cols r !! "corn_yield_Mg_ha-1" = cols r1 !! "corn_yield_Mg_ha-1" ∧
  cols r !! "soy_yield_Mg_ha-1" = cols r2 !! "soy_yield_Mg_ha-1" ∧
  cols r !! "stover_yield_Mg_ha-1" = cols r3 !! "stover_yield_Mg_ha-1" ∧
  cols r !! "dSOC_MgC_ha-1" = cols r4 !! "dSOC_MgC_ha-1" ∧
  cols r !! "N2O_MgN_ha-1" = cols r5 !! "N2O_MgN_ha-1" ∧
  (∀ c, c ∈ value_columns ↔ is_Some (cols r !! c)).

(** The cell of a pivoted row at column [(v, t)]. *)
Definition at_cell (r : prow) (v t : string) : num :=
  default NaN (pcells r !! (v, t)).

(** Line 135 and its five siblings, on one row. *)
Definition relative_row (name v t : string) (r : prow) : prow :=
  PRow (pindex r)
    (<[(name, "") := nsub (at_cell r v t) (at_cell r v "G")]> (pcells r)).

(** Line 141, on one row. *)
Definition ratio_row (r : prow) : prow :=
  PRow (pindex r)
    (<[("dSOC_MgStover", "") :=
         ndiv (at_cell r "dSOC_G25S_relative" "")
              (at_cell r "stover_yield_Mg_ha-1" "G25S")]> (pcells r)).

(** Lines 135-141, on one row. *)
Definition derive_row (r : prow) : prow :=
  ratio_row
    (relative_row "dN2O_G75S_relative" "N2O_MgN_ha-1" "G75S"
    (relative_row "dN2O_G50S_relative" "N2O_MgN_ha-1" "G50S"
    (relative_row "dN2O_G25S_relative" "N2O_MgN_ha-1" "G25S"
    (relative_row "dSOC_G75S_relative" "dSOC_MgC_ha-1" "G75S"
    (relative_row "dSOC_G50S_relative" "dSOC_MgC_ha-1" "G50S"
    (relative_row "dSOC_G25S_relative" "dSOC_MgC_ha-1" "G25S" r)))))).

(** A pivoted table with the column [(name, "")] computed row by row. *)
Definition add_column (name : string) (f : prow → prow) (p : PivotFrame)
  : PivotFrame :=
  {| pcolumns := if decide ((name, "") ∈ pcolumns p) then pcolumns p
                 else pcolumns p ++ [(name, "")];
     prows := f <$> prows p |}.

(** Every row has a cell in every column. *)
Definition rectangular (p : PivotFrame) : Prop :=
  ∀ r c, r ∈ prows p → c ∈ pcolumns p → is_Some (pcells r !! c).

(** The four treatments of the simulation. *)
Definition treatments : list string := ["G"; "G25S"; "G50S"; "G75S"].

(** The treatment [t] occurs in the merged table, for some county. *)
Definition treatment_occurs (df : DataFrame gkey) (t : string) : Prop :=
  ∃ r, r ∈ df ∧ (key r).2 = t.

(** The county [f] occurs in the merged table. *)
Definition county_occurs (df : DataFrame gkey) (f : Z) : Prop :=
  ∃ r, r ∈ df ∧ (key r).1 = f.

(** The seven derived cells of county [f], as the specification defines the
    derived columns, from the cells of the merged table. *)
Definition derived_cells (df : DataFrame gkey) (p : PivotFrame) (f : Z)
  : Prop :=
  let rel v t := nsub (cell df f t v) (cell df f "G" v) in
  pcell p f "dSOC_G25S_relative" "" = Some (rel "dSOC_MgC_ha-1" "G25S") ∧
  pcell p f "dSOC_G50S_relative" "" = Some (rel "dSOC_MgC_ha-1" "G50S") ∧
  pcell p f "dSOC_G75S_relative" "" = Some (rel "dSOC_MgC_ha-1" "G75S") ∧
  pcell p f "dN2O_G25S_relative" "" = Some (rel "N2O_MgN_ha-1" "G25S") ∧
  pcell p f "dN2O_G50S_relative" "" = Some (rel "N2O_MgN_ha-1" "G50S") ∧
  pcell p f "dN2O_G75S_relative" "" = Some (rel "N2O_MgN_ha-1" "G75S") ∧
  pcell p f "dSOC_MgStover" ""
  = Some (ndiv (rel "dSOC_MgC_ha-1" "G25S")
               (cell df f "G25S" "stover_yield_Mg_ha-1")).

(** The seven derived columns. *)
Definition derived_names : list string :=
  ["dSOC_G25S_relative"; "dSOC_G50S_relative"; "dSOC_G75S_relative";
   "dN2O_G25S_relative"; "dN2O_G50S_relative"; "dN2O_G75S_relative";
   "dSOC_MgStover"].

(** A row of the merged table. *)
Definition merged_row (f : Z) (t : string) (corn soy stover dsoc n2o : Q)
  : row gkey :=
  Row (f, t)
    {[ "corn_yield_Mg_ha-1" := Fin (lit corn);
       "soy_yield_Mg_ha-1" := Fin (lit soy);
       "stover_yield_Mg_ha-1" := Fin (lit stover);
       "dSOC_MgC_ha-1" := Fin (lit dsoc);
       "N2O_MgN_ha-1" := Fin (lit n2o) ]}.

(** A merged table of two counties: 19001 with the four treatments, 19003
    with the 25% removal alone. *)
Definition two_counties : DataFrame gkey :=
  [merged_row 19001 "G" 10 3 0 0.2 0.002;
   merged_row 19001 "G25S" 10 3 2 0.1 0.003;
   merged_row 19001 "G50S" 10 3 4 0 0.004;
   merged_row 19001 "G75S" 10 3 6 (-0.1) 0.005;
   merged_row 19003 "G25S" 9 3 2 0.1 0.003].

(** A merged table in which no county has the baseline treatment. *)
Definition no_baseline : DataFrame gkey :=
  [merged_row 19003 "G25S" 9 3 2 0.1 0.003;
   merged_row 19003 "G50S" 9 3 4 0 0.004;
   merged_row 19003 "G75S" 9 3 6 (-0.1) 0.005].

(** A row of a table of means. *)
Definition mean_row (c : string) (f : Z) (t : string) (v : Q) : row gkey :=
  Row (f, t) {[ c := Fin (lit v) ]}.

(** The yearly rows of county 19001 in one raw table. *)
Definition yearly_19001 (c : string) (vals : list (string * Z * Q))
  : DataFrame ykey :=
  (λ '(t, y, v), value_row c 19001 t y v) <$> vals.

(** Raw tables of one county under the four treatments: corn and stover in
    2012, soy in 2013, SOC from 2011 to 2013. *)
Definition one_county : inputs :=
  {| area_csv := [Row 19001 {[ "area_acres" := Fin (lit 100) ]}];
     corn_csv := yearly_19001 "grainyield_bu_ac"
       [("G", 2012, 150%Q); ("G25S", 2012, 150%Q); ("G50S", 2012, 148%Q);
        ("G75S", 2012, 145%Q)];
     soy_csv := yearly_19001 "grainyield_bu_ac"
       [("G", 2013, 50%Q); ("G25S", 2013, 50%Q); ("G50S", 2013, 50%Q);
        ("G75S", 2013, 50%Q)];
     stover_csv := yearly_19001 "stover_dryyield_kgha"
       [("G", 2012, 0%Q); ("G25S", 2012, 2000%Q); ("G50S", 2012, 4000%Q);
        ("G75S", 2012, 6000%Q)];
     soc_csv := yearly_19001 "SOC_20cm_g_m2"
       [("G", 2011, 5000%Q); ("G", 2012, 5020%Q); ("G", 2013, 5040%Q);
        ("G25S", 2011, 5000%Q); ("G25S", 2012, 5010%Q); ("G25S", 2013, 5020%Q);
        ("G50S", 2011, 5000%Q); ("G50S", 2012, 5000%Q); ("G50S", 2013, 5000%Q);
        ("G75S", 2011, 5000%Q); ("G75S", 2012, 4990%Q); ("G75S", 2013, 4980%Q)];
     n2o_csv := yearly_19001 "N2O_gN_m2"
       [("G", 2012, 20%Q); ("G25S", 2012, 21%Q); ("G50S", 2012, 22%Q);
        ("G75S", 2012, 23%Q)] |}.

(** ** Vocabulary of the further properties *)

(** A row of the differenced table [r'] next to the sorted row [r] it was
    computed from: same key columns, a difference cell, and every other
    column as it was. *)
Definition differenced (r r' : row ykey) : Prop :=
  key r' = key r ∧
  is_Some (cols r' !! "dSOC_MgC_ha-1") ∧
  (∀ c, c ≠ "dSOC_MgC_ha-1" → cols r' !! c = cols r !! c).

(** The years of a group start with the first year of the simulation, and
    that year occurs once in the group. *)
Definition starts_in_first_year (rows : DataFrame ykey) : Prop :=
  match rows with
  | [] => True
  | r0 :: rest => simyear (key r0) = first_year ∧ Forall not_first_year rest
  end.

(** A SOC table of two counties, three years each, rows out of order. *)
Definition soc_two_counties : DataFrame ykey :=
  [soc_row 19003 "G" 2012 31; soc_row 19001 "G" 2013 15;
   soc_row 19003 "G" 2011 30; soc_row 19001 "G" 2011 10;
   soc_row 19001 "G" 2012 12; soc_row 19003 "G" 2013 33].

(** The differences of the rationals [qs], each to the one before it,
    [prev] being the one before the first. *)
Fixpoint qdiffs (prev : Qc) (qs : list Qc) : list Qc :=
  match qs with
  | [] => []
  | q :: qs' => (q - prev)%Qc :: qdiffs q qs'
  end.

(** The column [c] holds a finite number in every row. *)
Definition finite_column {K} (c : string) (df : DataFrame K) : Prop :=
  Forall (λ r, ∃ q, cols r !! c = Some (Fin q)) df.

(** Raw corn yields of two counties. *)
Definition corn_two_counties : DataFrame ykey :=
  [corn_row 19001 "G" 2012 150; corn_row 19003 "G" 2012 140;
   corn_row 19001 "G" 2013 160].

(** The five yearly tables as they stand at line 113, for two counties;
    the N2O table lacks county 19003, and corn has a row of 2011. *)
Definition yearly_corn : DataFrame ykey :=
  [value_row "corn_yield_Mg_ha-1" 19003 "G" 2012 9;
   value_row "corn_yield_Mg_ha-1" 19001 "G" 2011 8;
   value_row "corn_yield_Mg_ha-1" 19001 "G" 2012 10].
Definition yearly_soy : DataFrame ykey :=
  [value_row "soy_yield_Mg_ha-1" 19001 "G" 2013 3;
   value_row "soy_yield_Mg_ha-1" 19003 "G" 2013 3].
Definition yearly_stover : DataFrame ykey :=
  [value_row "stover_yield_Mg_ha-1" 19003 "G" 2012 0;
   value_row "stover_yield_Mg_ha-1" 19001 "G" 2012 0].
Definition yearly_dsoc : DataFrame ykey :=
  [value_row "dSOC_MgC_ha-1" 19001 "G" 2012 0.2;
   value_row "dSOC_MgC_ha-1" 19003 "G" 2012 0.1].
Definition yearly_n2o : DataFrame ykey :=
  [value_row "N2O_MgN_ha-1" 19001 "G" 2012 0.002].

(** The mean of column [c] over the rows of [df] with the key of [r],
    whatever their years. *)
Definition group_mean (c : string) (df : DataFrame ykey) (r : row gkey)
  : num :=
  mean (column_cells c (filter (in_group (key r)) df)).

(** The labels of the seven derived columns. *)
Definition derived_labels : list (string * string) :=
  (λ name, (name, "")) <$> derived_names.

(** Lines 84-124: the merged table, before the pivot. *)
Definition merged (i : inputs) : option (DataFrame gkey) :=
  corn_df ← convert_corn (corn_csv i);
  soy_df ← convert_soy (soy_csv i);
  stover_df ← convert_stover (stover_csv i);
  soc_df ← convert_soc (soc_csv i);
  n2o_df ← convert_n2o (n2o_csv i);
  soc_df ← soc_annual_diff soc_df;
  aggregate_and_merge corn_df soy_df stover_df soc_df n2o_df.

(** Each of the six tables read has the column that the script converts. *)
Definition has_columns (i : inputs) : Prop :=
  Forall (λ r, is_Some (cols r !! "area_acres")) (area_csv i) ∧
  Forall (λ r, is_Some (cols r !! "grainyield_bu_ac")) (corn_csv i) ∧
  Forall (λ r, is_Some (cols r !! "grainyield_bu_ac")) (soy_csv i) ∧
  Forall (λ r, is_Some (cols r !! "stover_dryyield_kgha")) (stover_csv i) ∧
  Forall (λ r, is_Some (cols r !! "SOC_20cm_g_m2")) (soc_csv i) ∧
  Forall (λ r, is_Some (cols r !! "N2O_gN_m2")) (n2o_csv i).

(** * Theorems *)

(** ** Unit conversions *)

Lemma Qcabs_0 : Qcabs 0 = 0%Qc.
Proof. apply Qc_is_canon. reflexivity. Qed.

Lemma convert_rows {K} (src tgt : string) (factor : Qc) (df : DataFrame K) vs :
  src ≠ tgt →
  Forall2 (λ r v, cols r !! src = Some v) df vs →
  Forall2 (converted src tgt factor) df
    (drop_column src (set_column tgt (scale factor vs) df)).
Proof.
  intros Hne HF. induction HF as [|r v df vs Hv HF IH]; [constructor|].
  unfold drop_column, set_column, scale in *. cbn [fmap list_fmap zip_with].
  constructor; [|exact IH].
  repeat split; cbn [key cols].
  - apply lookup_delete_eq.
  - exists v. split; [done|].
    rewrite lookup_delete_ne by done. apply lookup_insert_eq.
  - intros q Hq. rewrite Hv in Hq. injection Hq as ->.
    exists (q * factor)%Qc. split.
    + rewrite lookup_delete_ne by done. by rewrite lookup_insert_eq.
    + replace (q * factor - q * factor)%Qc with 0%Qc by ring.
      rewrite Qcabs_0. compute_done.
  - intros c Hs Ht. rewrite lookup_delete_ne by done.
    by rewrite lookup_insert_ne.
Qed.

Lemma unit_convert_converts {K} (src tgt : string) (factor : Qc) :
  src ≠ tgt → converts (unit_convert (K:=K) src tgt factor) src tgt factor.
Proof.
  intros Hne df Hsrc. unfold unit_convert.
  destruct (mapM_is_Some_2 (λ r : row K, cols r !! src) df) as [vs Hvs];
    [exact Hsrc|].
  unfold get_column. rewrite Hvs. cbn. eexists. split; [done|].
  apply convert_rows; [done|]. by apply mapM_Some_1.
Qed.

(** C3. Each of the six unit conversions of the script returns, on a table
    that has the source column, a table with the same rows in the same
    order, in which the source column is gone, the target column holds the
    source cell times the factor composed from constants.py (exactly, so
    within 1e-9), and every other column is unchanged. *)
Theorem unit_conversions_correct :
  converts convert_area "area_acres" "area_ha" (lit 0.404686) ∧
  converts convert_corn "grainyield_bu_ac" "corn_yield_Mg_ha-1"
    (lit 25.4012 * lit 0.001 / lit 0.404686) ∧
  converts convert_soy "grainyield_bu_ac" "soy_yield_Mg_ha-1"
    (lit 27.2 * lit 0.001 / lit 0.404686) ∧
  converts convert_stover "stover_dryyield_kgha" "stover_yield_Mg_ha-1"
    (lit 0.001) ∧
  converts convert_soc "SOC_20cm_g_m2" "SOC_MgC_ha-1" (lit 0.01) ∧
  converts convert_n2o "N2O_gN_m2" "N2O_MgN_ha-1" (lit 0.01).
Proof. repeat split; by apply unit_convert_converts. Qed.

(** The corn conversion on one row of 150 bu/acre. *)
Lemma unit_conversions_correct_witness :
  ∃ df', convert_corn
           [Row (YKey 19001 "G" 2012) {[ "grainyield_bu_ac" := Fin (lit 150) ]}]
         = Some df' ∧
         Forall2 (converted "grainyield_bu_ac" "corn_yield_Mg_ha-1"
                    (lit 25.4012 * lit 0.001 / lit 0.404686))
           [Row (YKey 19001 "G" 2012) {[ "grainyield_bu_ac" := Fin (lit 150) ]}]
           df'.
Proof.
  destruct unit_conversions_correct as (_ & Hcorn & _).
  apply Hcorn. repeat constructor. by eexists.
Defined.

(** ** The order of the keys *)

Section total_compare.
Context {A : Type} (cmp : A → A → comparison) `{!TotalCompare cmp}.

Lemma cmp_refl a : cmp a a = Eq.
Proof. by apply cmp_eq. Qed.

Lemma cmp_gt_lt a b : cmp a b = Gt ↔ cmp b a = Lt.
Proof. rewrite (cmp_antisym (cmp:=cmp) a b). destruct (cmp a b); cbn; naive_solver. Qed.

Lemma cmp_leb_total a b :
  cmp_leb (cmp a b) = true ∨ cmp_leb (cmp b a) = true.
Proof. rewrite (cmp_antisym (cmp:=cmp) a b). destruct (cmp a b); cbn; auto. Qed.

Lemma cmp_leb_trans a b c :
  cmp_leb (cmp a b) = true → cmp_leb (cmp b c) = true →
  cmp_leb (cmp a c) = true.
Proof.
  destruct (cmp a b) eqn:Hab; [|intros _|done].
  - apply cmp_eq in Hab as ->. done.
  - destruct (cmp b c) eqn:Hbc; [|intros _|done].
    + apply cmp_eq in Hbc as ->. by rewrite Hab.
    + by rewrite (cmp_lt_trans (cmp:=cmp) a b c).
Qed.

Lemma cmp_leb_antisym a b :
  cmp_leb (cmp a b) = true → cmp_leb (cmp b a) = true → a = b.
Proof.
  rewrite (cmp_antisym (cmp:=cmp) a b). destruct (cmp a b) eqn:Hab; cbn; try done.
  intros _ _. by apply cmp_eq.
Qed.

Lemma cmp_not_leb a b : cmp_leb (cmp a b) = false → cmp b a = Lt.
Proof. destruct (cmp a b) eqn:Hab; try done. intros _. by apply cmp_gt_lt. Qed.
End total_compare.

Global Instance Z_compare_total : TotalCompare Z.compare.
Proof.
  split.
  - apply Z.compare_eq_iff.
  - intros a b. apply Z.compare_antisym.
  - intros a b c. rewrite !Z.compare_lt_iff. lia.
Qed.

Global Instance ascii_compare_total : TotalCompare Ascii.compare.
Proof.
  split.
  - intros a b. split; [apply Ascii.compare_eq_iff|].
    intros ->. apply N.compare_refl.
  - intros a b. apply Ascii.compare_antisym.
  - intros a b c. unfold Ascii.compare. rewrite !N.compare_lt_iff. lia.
Qed.

(** One step of a lexicographic comparison is transitive when both of its
    parts are. *)
Lemma lex_lt_trans {A} (cmp : A → A → comparison) `{!TotalCompare cmp}
    (a b c : A) (d12 d23 d13 : comparison) :
  (d12 = Lt → d23 = Lt → d13 = Lt) →
  lex (cmp a b) d12 = Lt → lex (cmp b c) d23 = Lt → lex (cmp a c) d13 = Lt.
Proof.
  intros Hd. unfold lex.
  destruct (cmp a b) eqn:H1; [|intros _|done].
  - apply (cmp_eq (cmp:=cmp)) in H1. subst b.
    destruct (cmp a c); [|done..]. auto.
  - destruct (cmp b c) eqn:H2; [|intros _|done].
    + apply (cmp_eq (cmp:=cmp)) in H2. subst c. by rewrite H1.
    + by rewrite (cmp_lt_trans (cmp:=cmp) a b c).
Qed.

Lemma string_compare_refl s : String.compare s s = Eq.
Proof.
  induction s as [|a s IH]; [done|]. cbn. by rewrite (cmp_refl Ascii.compare).
Qed.

Lemma string_compare_lt_trans s1 s2 s3 :
  String.compare s1 s2 = Lt → String.compare s2 s3 = Lt →
  String.compare s1 s3 = Lt.
Proof.
  revert s2 s3. induction s1 as [|a1 s1 IH]; intros [|a2 s2] [|a3 s3]; try done.
  cbn. intros H12 H23.
  change (lex (Ascii.compare a1 a3) (String.compare s1 s3) = Lt).
  apply (lex_lt_trans Ascii.compare a1 a2 a3
           (String.compare s1 s2) (String.compare s2 s3) (String.compare s1 s3)).
  - apply IH.
  - exact H12.
  - exact H23.
Qed.

Global Instance string_compare_total : TotalCompare String.compare.
Proof.
  split.
  - intros a b. split; [apply String.compare_eq_iff|].
    intros ->. apply string_compare_refl.
  - intros a b. apply String.compare_antisym.
  - apply string_compare_lt_trans.
Qed.

Global Instance pair_compare_total {A B} (cmpA : A → A → comparison)
    (cmpB : B → B → comparison) `{!TotalCompare cmpA, !TotalCompare cmpB} :
  TotalCompare (pair_compare cmpA cmpB).
Proof.
  split.
  - intros [a1 b1] [a2 b2]. unfold pair_compare, lex. cbn. split.
    + destruct (cmpA a1 a2) eqn:Ha; try done.
      intros Hb. apply (cmp_eq (cmp:=cmpA)) in Ha.
      apply (cmp_eq (cmp:=cmpB)) in Hb. congruence.
    + intros [= -> ->]. by rewrite (cmp_refl cmpA), (cmp_refl cmpB).
  - intros [a1 b1] [a2 b2]. unfold pair_compare, lex. cbn.
    rewrite (cmp_antisym (cmp:=cmpA) a1 a2), (cmp_antisym (cmp:=cmpB) b1 b2).
    by destruct (cmpA a1 a2).
  - intros [a1 b1] [a2 b2] [a3 b3]. unfold pair_compare. cbn.
    apply (lex_lt_trans cmpA). apply cmp_lt_trans.
Qed.

Global Instance gkey_compare_total : TotalCompare gkey_compare.
Proof. unfold gkey_compare. apply _. Qed.

Lemma ykey_compare_pair a b :
  ykey_compare a b =
  pair_compare gkey_compare Z.compare (group_of a, simyear a)
    (group_of b, simyear b).
Proof. done. Qed.

Global Instance ykey_compare_total : TotalCompare ykey_compare.
Proof.
  split.
  - intros a b. rewrite ykey_compare_pair, cmp_eq.
    destruct a, b. unfold group_of. cbn. naive_solver.
  - intros a b. rewrite !ykey_compare_pair. apply cmp_antisym.
  - intros a b c. rewrite !ykey_compare_pair. apply cmp_lt_trans.
Qed.

Global Instance row_le_trans : Transitive row_le.
Proof. intros a b c. apply (cmp_leb_trans ykey_compare). Qed.

Global Instance row_le_total : Total row_le.
Proof. intros a b. apply (cmp_leb_total ykey_compare). Qed.

(** A row that sorts before another is in the same group or in an earlier
    one. *)
Lemma row_le_group r1 r2 :
  row_le r1 r2 →
  cmp_leb (gkey_compare (group_of (key r1)) (group_of (key r2))) = true.
Proof.
  unfold row_le, ykey_leb, ykey_compare, lex.
  by destruct (gkey_compare _ _).
Qed.

(** ** [sort_values] *)

Lemma filter_none {A} (P : A → Prop) `{!∀ x, Decision (P x)} (l : list A) :
  (∀ y, y ∈ l → ¬ P y) → filter P l = [].
Proof.
  induction l as [|x l IH]; [done|]. intros Hl.
  rewrite filter_cons_False by (apply Hl; left).
  apply IH. intros y Hy. apply Hl. by right.
Qed.

Lemma filter_all {A} (P : A → Prop) `{!∀ x, Decision (P x)} (l : list A) :
  (∀ y, y ∈ l → P y) → filter P l = l.
Proof.
  induction l as [|x l IH]; [done|]. intros Hl.
  rewrite filter_cons_True by (apply Hl; left).
  f_equal. apply IH. intros y Hy. apply Hl. by right.
Qed.

Lemma insert_row_perm r l : insert_row r l ≡ₚ r :: l.
Proof.
  induction l as [|x l IH]; [done|]. cbn.
  destruct (ykey_leb (key r) (key x)); [done|].
  rewrite IH. apply Permutation_swap.
Qed.

Lemma sort_values_perm df : sort_values df ≡ₚ df.
Proof.
  induction df as [|r df IH]; [done|]. cbn.
  by rewrite insert_row_perm, IH.
Qed.

Lemma insert_row_sorted r l :
  StronglySorted row_le l → StronglySorted row_le (insert_row r l).
Proof.
  induction 1 as [|x l Hl IH Hx]; cbn.
  - repeat constructor.
  - destruct (ykey_leb (key r) (key x)) eqn:Hrx.
    + constructor; [by constructor|].
      constructor; [exact Hrx|].
      eapply Forall_impl; [exact Hx|]. intros y Hy. by trans x.
    + constructor; [exact IH|].
      rewrite insert_row_perm. constructor; [|exact Hx].
      destruct (total row_le x r) as [?|Hle]; [done|].
      unfold row_le in Hle. congruence.
Qed.

Lemma sort_values_sorted df : StronglySorted row_le (sort_values df).
Proof.
  induction df as [|r df IH]; [constructor|]. by apply insert_row_sorted.
Qed.

(** A row that sorts before every row of [l] is inserted in front. *)
Lemma insert_row_head r l : Forall (row_le r) l → insert_row r l = r :: l.
Proof. destruct 1 as [|x l Hx _]; [done|]. cbn. by rewrite Hx. Qed.

Section filter_sort.
Context (P : row ykey → Prop) `{!∀ r, Decision (P r)}.

Lemma filter_insert_row r l :
  StronglySorted row_le l →
  filter P (insert_row r l) =
  if decide (P r) then insert_row r (filter P l) else filter P l.
Proof.
  induction 1 as [|x l Hl IH Hx]; cbn [insert_row].
  - rewrite filter_cons, filter_nil. by destruct (decide (P r)).
  - destruct (ykey_leb (key r) (key x)) eqn:Hrx.
    + rewrite (filter_cons _ r). destruct (decide (P r)); [|done].
      rewrite insert_row_head; [done|].
      apply Forall_forall. intros y [_ Hy]%list_elem_of_filter.
      apply elem_of_cons in Hy as [->|Hy]; [done|].
      trans x; [done|]. by eapply Forall_forall in Hx.
    + rewrite (filter_cons _ x), IH, (filter_cons _ x).
      destruct (decide (P x)), (decide (P r)); try done.
      cbn [insert_row]. by rewrite Hrx.
Qed.

(** The sort is stable, so it commutes with the selection of rows. *)
Lemma filter_sort_values df :
  filter P (sort_values df) = sort_values (filter P df).
Proof.
  induction df as [|r df IH]; [done|].
  rewrite filter_cons. change (sort_values (r :: df)) with
    (insert_row r (sort_values df)).
  rewrite filter_insert_row by apply sort_values_sorted.
  destruct (decide (P r)); [|done].
  change (sort_values (r :: filter P df)) with
    (insert_row r (sort_values (filter P df))). by rewrite IH.
Qed.
End filter_sort.

(** In a sorted table the rows of a group stand together: first the rows
    of the groups before it, then its own, then the rows of the groups
    after it. *)
Lemma sorted_group_split g l :
  StronglySorted row_le l →
  l = filter (λ r, gkey_compare (group_of (key r)) g = Lt) l
      ++ filter (in_group g) l
      ++ filter (λ r, gkey_compare (group_of (key r)) g = Gt) l.
Proof.
  induction 1 as [|r l Hl IH Hr]; [done|].
  assert (Hgrp : ∀ y, y ∈ l →
            cmp_leb (gkey_compare (group_of (key r)) (group_of (key y))) = true).
  { intros y Hy. apply row_le_group. by eapply Forall_forall in Hr. }
  rewrite !(filter_cons _ r). unfold in_group at 1.
  destruct (gkey_compare (group_of (key r)) g) eqn:Hc.
  - apply (cmp_eq (cmp:=gkey_compare)) in Hc.
    rewrite decide_False by done. rewrite decide_True by done.
    rewrite decide_False by done.
    assert (filter (λ r, gkey_compare (group_of (key r)) g = Lt) l = []) as Hnil.
    { apply filter_none. intros y Hy Hlt.
      specialize (Hgrp y Hy). rewrite Hc in Hgrp.
      apply (cmp_gt_lt gkey_compare) in Hlt. by rewrite Hlt in Hgrp. }
    rewrite Hnil in IH |- *. cbn. f_equal. exact IH.
  - rewrite decide_True by done.
    rewrite decide_False.
    2:{ intros Heq. rewrite Heq, (cmp_refl gkey_compare) in Hc. done. }
    rewrite decide_False by done. cbn. f_equal. exact IH.
  - rewrite decide_False by done.
    rewrite decide_False.
    2:{ intros Heq. rewrite Heq, (cmp_refl gkey_compare) in Hc. done. }
    rewrite decide_True by done.
    assert (Hgt : ∀ y, y ∈ l → gkey_compare (group_of (key y)) g = Gt).
    { intros y Hy. specialize (Hgrp y Hy).
      apply (cmp_gt_lt gkey_compare). apply (cmp_gt_lt gkey_compare) in Hc.
      destruct (gkey_compare (group_of (key r)) (group_of (key y))) eqn:Hry;
        [|  |done].
      - apply (cmp_eq (cmp:=gkey_compare)) in Hry. by rewrite <-Hry.
      - by apply (cmp_lt_trans (cmp:=gkey_compare)) with (group_of (key r)). }
    assert (filter (λ r, gkey_compare (group_of (key r)) g = Lt) l = []) as ->.
    { apply filter_none. intros y Hy Hlt.
      rewrite (Hgt y Hy) in Hlt. done. }
    assert (filter (in_group g) l = []) as ->.
    { apply filter_none. intros y Hy Hin. unfold in_group in Hin.
      specialize (Hgt y Hy). rewrite Hin, (cmp_refl gkey_compare) in Hgt. done. }
    cbn. f_equal.
    rewrite IH at 1.
    assert (filter (λ r, gkey_compare (group_of (key r)) g = Lt) l = []) as ->.
    { apply filter_none. intros y Hy Hlt.
      rewrite (Hgt y Hy) in Hlt. done. }
    assert (filter (in_group g) l = []) as ->.
    { apply filter_none. intros y Hy Hin. unfold in_group in Hin.
      specialize (Hgt y Hy). rewrite Hin, (cmp_refl gkey_compare) in Hgt. done. }
    done.
Qed.

(** ** Annual SOC differences *)

Lemma nsub_nan v : nsub v NaN = NaN.
Proof. by destruct v. Qed.

Lemma diff_diff_from vs : diff vs = diff_from NaN vs.
Proof. destruct vs as [|v vs]; [done|]. cbn. by rewrite nsub_nan. Qed.

(** Assigning the differences of the SOC column is [annotate]. *)
Lemma set_column_diff_from prev (l : DataFrame ykey) vs :
  Forall2 (λ r v, cols r !! "SOC_MgC_ha-1" = Some v) l vs →
  set_column "dSOC_MgC_ha-1" (diff_from prev vs) l = annotate prev l.
Proof.
  intros HF. revert prev.
  induction HF as [|r v l vs Hv HF IH]; intros prev; [done|].
  cbn. unfold soc_value at 1 2. rewrite Hv. cbn.
  unfold set_column in IH. by rewrite IH.
Qed.

Lemma annotate_app prev a b :
  annotate prev (a ++ b) = annotate prev a ++ annotate (last_value prev a) b.
Proof.
  revert prev. induction a as [|r a IH]; intros prev; [done|].
  cbn. by rewrite IH.
Qed.

Lemma annotate_elem prev l y :
  y ∈ annotate prev l → ∃ r, r ∈ l ∧ key y = key r.
Proof.
  revert prev. induction l as [|r l IH]; intros prev; cbn.
  - by intros ?%elem_of_nil.
  - intros [->|Hy]%elem_of_cons.
    + exists r. split; [left|done].
    + destruct (IH _ Hy) as (r' & ? & ?). exists r'. split; [by right|done].
Qed.

Section filter_annotate.
Context (P : row ykey → Prop) `{!∀ r, Decision (P r)}.
Context (P_key : ∀ r r', key r = key r' → P r → P r').

Lemma filter_annotate_all prev l :
  (∀ r, r ∈ l → P r) → filter P (annotate prev l) = annotate prev l.
Proof.
  intros Hl. apply filter_all. intros y Hy.
  destruct (annotate_elem _ _ _ Hy) as (r & Hr & Hk).
  apply (P_key r); [done|]. by apply Hl.
Qed.

Lemma filter_annotate_none prev l :
  (∀ r, r ∈ l → ¬ P r) → filter P (annotate prev l) = [].
Proof.
  intros Hl. apply filter_none. intros y Hy HP.
  destruct (annotate_elem _ _ _ Hy) as (r & Hr & Hk).
  apply (Hl r Hr). by apply (P_key y).
Qed.
End filter_annotate.

Lemma in_group_key g r r' : key r = key r' → in_group g r → in_group g r'.
Proof. unfold in_group. by intros ->. Qed.

Lemma not_first_year_key r r' :
  key r = key r' → not_first_year r → not_first_year r'.
Proof. unfold not_first_year. by intros ->. Qed.

Lemma filter_comm {A} (P Q : A → Prop)
    `{!∀ x, Decision (P x), !∀ x, Decision (Q x)} (l : list A) :
  filter P (filter Q l) = filter Q (filter P l).
Proof.
  rewrite !list_filter_filter. apply list_filter_iff.
  intros x. split; intros [? ?]; by split.
Qed.

(** What lines 105-107 compute, before any hypothesis on the years. *)
Lemma soc_annual_diff_annotate df :
  Forall (λ r, is_Some (cols r !! "SOC_MgC_ha-1")) df →
  soc_annual_diff df
  = Some (filter not_first_year (annotate NaN (sort_values df))).
Proof.
  intros Hsoc. unfold soc_annual_diff, get_column.
  destruct (mapM_is_Some_2 (λ r : row ykey, cols r !! "SOC_MgC_ha-1")
              (sort_values df)) as [vs Hvs].
  { by rewrite sort_values_perm. }
  rewrite Hvs. cbn. f_equal.
  rewrite diff_diff_from, set_column_diff_from by by apply mapM_Some_1.
  done.
Qed.

(** The rows of a group in the differenced table: the rows of the group in
    ascending year, differenced from [prev], the SOC of the row that sorts
    just before the group (NaN when there is none), less the rows of the
    first year. *)
Lemma soc_annual_diff_group df g :
  Forall (λ r, is_Some (cols r !! "SOC_MgC_ha-1")) df →
  ∃ out prev,
    soc_annual_diff df = Some out ∧
    filter (in_group g) out
    = filter not_first_year
        (annotate prev (sort_values (filter (in_group g) df))).
Proof.
  intros Hsoc. rewrite soc_annual_diff_annotate by done.
  eexists _, _. split; [done|].
  rewrite filter_comm. f_equal.
  rewrite <-(filter_sort_values (in_group g)).
  pose proof (sorted_group_split g _ (sort_values_sorted df)) as Hsplit.
  set (L := filter (λ r, gkey_compare (group_of (key r)) g = Lt)
              (sort_values df)) in *.
  set (E := filter (in_group g) (sort_values df)) in *.
  set (G := filter (λ r, gkey_compare (group_of (key r)) g = Gt)
              (sort_values df)) in *.
  rewrite Hsplit at 1. rewrite !annotate_app, !filter_app.
  rewrite (filter_annotate_none (in_group g) (in_group_key g)).
  2:{ intros r [Hr _]%list_elem_of_filter Hin. unfold in_group in Hin.
      rewrite Hin, (cmp_refl gkey_compare) in Hr. done. }
  rewrite (filter_annotate_none (in_group g) (in_group_key g) _ G).
  2:{ intros r [Hr _]%list_elem_of_filter Hin. unfold in_group in Hin.
      rewrite Hin, (cmp_refl gkey_compare) in Hr. done. }
  rewrite (filter_annotate_all (in_group g) (in_group_key g)).
  2:{ by intros r [Hr _]%list_elem_of_filter. }
  by rewrite app_nil_r.
Qed.

(** When the years of a group start with the first year of the simulation
    and that year occurs once, lines 105-107 difference the group as the
    specification words it. *)
Lemma soc_annual_diff_first_year df g r0 rest :
  Forall (λ r, is_Some (cols r !! "SOC_MgC_ha-1")) df →
  sort_values (filter (in_group g) df) = r0 :: rest →
  simyear (key r0) = first_year →
  Forall not_first_year rest →
  ∃ out, soc_annual_diff df = Some out ∧
         filter (in_group g) out = differenced_group (r0 :: rest).
Proof.
  intros Hsoc Hsort H0 Hrest.
  destruct (soc_annual_diff_group df g Hsoc) as (out & prev & Hout & Hg).
  exists out. split; [done|]. rewrite Hg, Hsort.
  unfold differenced_group. cbn [annotate tail].
  rewrite filter_cons_False.
  2:{ unfold not_first_year. cbn. by intros []. }
  apply (filter_annotate_all not_first_year not_first_year_key).
  by apply Forall_forall.
Qed.

(** C1. On a SOC table in which county 19003 has the single year 2012,
    lines 93-107 keep the row of county 19003: its year is not 2011, and its
    difference, 20 - 12, is taken against the last row of county 19001.  The
    first row of that group is not removed, and a group with one year
    contributes a row. *)
Theorem soc_diff_keeps_single_year_group :
  (convert_soc
     [raw_soc_row 19001 "G" 2011 1000; raw_soc_row 19001 "G" 2012 1200;
      raw_soc_row 19003 "G" 2012 2000]
   ≫= soc_annual_diff)
  = Some [dsoc_row 19001 "G" 2012 12 2; dsoc_row 19003 "G" 2012 20 8].
Proof. compute_done. Qed.

Lemma three_years_sorted (f : Z) (t : string) (c0 c1 c2 : gmap string num) :
  StronglySorted row_le
    [Row (YKey f t 2011) c0; Row (YKey f t 2012) c1; Row (YKey f t 2013) c2].
Proof.
  assert (∀ y1 y2 c c', y1 <= y2 →
            row_le (Row (YKey f t y1) c) (Row (YKey f t y2) c')) as Hle.
  { intros y1 y2 c c' Hy. unfold row_le, ykey_leb, ykey_compare. cbn.
    unfold group_of. cbn. rewrite (cmp_refl gkey_compare). cbn.
    by destruct (y1 ?= y2) eqn:Hc. }
  repeat constructor; apply Hle; lia.
Qed.

(** C2. In any table in which a group has the years 2011, 2012, 2013 with
    the SOC values 10, 12, 15, the differenced table has, for that group,
    exactly the row of 2012 with difference 2 and the row of 2013 with
    difference 3, in that order; and no row of the differenced table has
    the year 2011. *)
Theorem soc_diff_three_years (df : DataFrame ykey) (f : Z) (t : string)
    (c0 c1 c2 : gmap string num) :
  Forall (λ r, is_Some (cols r !! "SOC_MgC_ha-1")) df →
  filter (in_group (f, t)) df
    ≡ₚ [Row (YKey f t 2011) c0; Row (YKey f t 2012) c1; Row (YKey f t 2013) c2] →
  c0 !! "SOC_MgC_ha-1" = Some (Fin (lit 10)) →
  c1 !! "SOC_MgC_ha-1" = Some (Fin (lit 12)) →
  c2 !! "SOC_MgC_ha-1" = Some (Fin (lit 15)) →
  ∃ out,
    soc_annual_diff df = Some out ∧
    filter (in_group (f, t)) out
    = [Row (YKey f t 2012) (<["dSOC_MgC_ha-1" := Fin (lit 2)]> c1);
       Row (YKey f t 2013) (<["dSOC_MgC_ha-1" := Fin (lit 3)]> c2)] ∧
    ∀ r, r ∈ out → simyear (key r) ≠ 2011.
Proof.
  intros Hsoc Hperm H0 H1 H2.
  set (rows := [Row (YKey f t 2011) c0; Row (YKey f t 2012) c1;
                Row (YKey f t 2013) c2]) in *.
  assert (sort_values (filter (in_group (f, t)) df) = rows) as Hsort.
  { apply (StronglySorted_unique_strong row_le).
    - intros x1 x2 Hx1 Hx2 H12 H21.
      assert (key x1 = key x2) as Hk
        by by apply (cmp_leb_antisym ykey_compare).
      rewrite sort_values_perm, Hperm in Hx1. unfold rows in Hx1, Hx2.
      set_unfold. destruct Hx1 as [->|[->|[->|[]]]];
        destruct Hx2 as [->|[->|[->|[]]]]; try done; by injection Hk.
    - apply sort_values_sorted.
    - apply three_years_sorted.
    - by rewrite sort_values_perm. }
  destruct (soc_annual_diff_first_year df (f, t) (Row (YKey f t 2011) c0)
              [Row (YKey f t 2012) c1; Row (YKey f t 2013) c2])
    as (out & Hout & Hg); [done|done|done| |].
  { repeat constructor; unfold not_first_year, first_year; cbn; lia. }
  exists out. split; [done|]. split.
  - rewrite Hg. unfold differenced_group. cbn [annotate tail].
    unfold with_dSOC, soc_value. cbn [key cols].
    rewrite H0, H1, H2. cbn [default]. unfold id.
    assert (nsub (Fin (lit 12)) (Fin (lit 10)) = Fin (lit 2)) as ->
      by compute_done.
    assert (nsub (Fin (lit 15)) (Fin (lit 12)) = Fin (lit 3)) as ->
      by compute_done.
    done.
  - rewrite soc_annual_diff_annotate in Hout by done.
    injection Hout as <-. intros r [Hr _]%list_elem_of_filter. exact Hr.
Qed.

(** The three rows alone, in reverse order. *)
Lemma soc_diff_three_years_witness :
  ∃ out,
    soc_annual_diff
      [soc_row 19001 "G" 2013 15; soc_row 19001 "G" 2012 12;
       soc_row 19001 "G" 2011 10] = Some out ∧
    filter (in_group (19001, "G")) out
    = [Row (YKey 19001 "G" 2012)
         (<["dSOC_MgC_ha-1" := Fin (lit 2)]>
            {[ "SOC_MgC_ha-1" := Fin (lit 12) ]});
       Row (YKey 19001 "G" 2013)
         (<["dSOC_MgC_ha-1" := Fin (lit 3)]>
            {[ "SOC_MgC_ha-1" := Fin (lit 15) ]})] ∧
    ∀ r, r ∈ out → simyear (key r) ≠ 2011.
Proof.
  apply (soc_diff_three_years
           [soc_row 19001 "G" 2013 15; soc_row 19001 "G" 2012 12;
            soc_row 19001 "G" 2011 10] 19001 "G"
           {[ "SOC_MgC_ha-1" := Fin (lit 10) ]}
           {[ "SOC_MgC_ha-1" := Fin (lit 12) ]}
           {[ "SOC_MgC_ha-1" := Fin (lit 15) ]}).
  - repeat constructor; by eexists.
  - vm_compute. apply Permutation_rev.
  - reflexivity.
  - reflexivity.
  - reflexivity.
Defined.

(** ** [groupby(...).mean()] *)

Section sort_uniq.
Context {A : Type} (cmp : A → A → comparison) `{!TotalCompare cmp}.

Lemma insert_uniq_elem k l x :
  x ∈ insert_uniq cmp k l ↔ x = k ∨ x ∈ l.
Proof.
  induction l as [|y l IH]; cbn.
  - rewrite list_elem_of_singleton, elem_of_nil. tauto.
  - destruct (cmp k y) eqn:Hc.
    + apply (cmp_eq (cmp:=cmp)) in Hc as ->. rewrite elem_of_cons. tauto.
    + rewrite elem_of_cons. tauto.
    + rewrite !elem_of_cons, IH. tauto.
Qed.

Lemma insert_uniq_sorted k l :
  StronglySorted (cmp_lt cmp) l →
  StronglySorted (cmp_lt cmp) (insert_uniq cmp k l).
Proof.
  induction 1 as [|y l Hl IH Hy]; cbn.
  - repeat constructor.
  - destruct (cmp k y) eqn:Hc.
    + by constructor.
    + constructor; [by constructor|]. constructor; [done|].
      eapply Forall_impl; [exact Hy|]. intros z Hz.
      by apply (cmp_lt_trans (cmp:=cmp)) with y.
    + constructor; [done|]. apply Forall_forall.
      intros z [->|Hz]%insert_uniq_elem.
      * by apply (cmp_gt_lt cmp).
      * by eapply Forall_forall in Hy.
Qed.

Lemma sort_uniq_sorted l : StronglySorted (cmp_lt cmp) (sort_uniq cmp l).
Proof.
  induction l as [|k l IH]; [constructor|]. by apply insert_uniq_sorted.
Qed.

Lemma sort_uniq_elem l x : x ∈ sort_uniq cmp l ↔ x ∈ l.
Proof.
  induction l as [|k l IH]; [done|]. cbn.
  rewrite insert_uniq_elem, elem_of_cons, IH. tauto.
Qed.

Lemma sorted_lt_NoDup l : StronglySorted (cmp_lt cmp) l → NoDup l.
Proof.
  induction 1 as [|y l Hl IH Hy]; constructor; [|done].
  intros Hin. eapply Forall_forall in Hy; [|exact Hin].
  unfold cmp_lt in Hy. by rewrite (cmp_refl cmp) in Hy.
Qed.

Lemma sort_uniq_NoDup l : NoDup (sort_uniq cmp l).
Proof. apply sorted_lt_NoDup, sort_uniq_sorted. Qed.

(** The result depends on the keys that occur, not on their order or
    number. *)
Lemma sort_uniq_ext l l' :
  (∀ x, x ∈ l ↔ x ∈ l') → sort_uniq cmp l = sort_uniq cmp l'.
Proof.
  intros Hl. apply (StronglySorted_unique_strong (cmp_lt cmp)).
  - intros x1 x2 _ _ H12 H21. unfold cmp_lt in *.
    apply (cmp_gt_lt cmp) in H21. congruence.
  - apply sort_uniq_sorted.
  - apply sort_uniq_sorted.
  - apply NoDup_Permutation; [apply sort_uniq_NoDup..|].
    intros x. by rewrite !sort_uniq_elem.
Qed.
End sort_uniq.

Global Instance nadd_comm : Comm (=) nadd.
Proof. intros [a| | |] [b| | |]; cbn; try done. f_equal. ring. Qed.

Global Instance nadd_assoc : Assoc (=) nadd.
Proof.
  intros [a| | |] [b| | |] [c| | |]; cbn; try done. f_equal. ring.
Qed.

Lemma nsum_perm l l' : l ≡ₚ l' → nsum l = nsum l'.
Proof. apply (foldr_permutation_proper' (=) nadd (Fin 0)). Qed.

Lemma mean_perm l l' : l ≡ₚ l' → mean l = mean l'.
Proof.
  intros Hl. unfold mean.
  assert (filter (λ v, is_nan v = false) l ≡ₚ filter (λ v, is_nan v = false) l')
    as Hf by by rewrite Hl.
  destruct (filter _ l) as [|x xs] eqn:E, (filter _ l') as [|x' xs'] eqn:E'.
  - done.
  - by apply Permutation_nil_cons in Hf.
  - symmetry in Hf. by apply Permutation_nil_cons in Hf.
  - by rewrite (nsum_perm _ _ Hf), (Permutation_length Hf).
Qed.

Lemma nsum_fin (qs : list Qc) :
  nsum (Fin <$> qs) = Fin (foldr Qcplus 0%Qc qs).
Proof.
  induction qs as [|q qs IH]; [done|].
  cbn. unfold nsum in IH. cbn in IH. by rewrite IH.
Qed.

(** On finite cells, [mean] is the arithmetic mean. *)
Lemma mean_fin (qs : list Qc) :
  qs ≠ [] → mean (Fin <$> qs) = Fin (arith_mean qs).
Proof.
  intros Hne. unfold mean.
  rewrite filter_all by (by intros y (q & -> & _)%list_elem_of_fmap).
  rewrite nsum_fin, length_fmap.
  destruct qs as [|q qs]; [done|]. cbn [fmap list_fmap ndiv].
  rewrite decide_False; [done|]. intros Hz.
  apply (f_equal this) in Hz. cbn in Hz. injection Hz. lia.
Qed.

Lemma zip_kv_of c (df : DataFrame ykey) vs :
  Forall2 (λ r v, cols r !! c = Some v) df vs →
  zip ((λ r, group_of (key r)) <$> df) vs = kv_of c <$> df.
Proof.
  induction 1 as [|r v df vs Hv _ IH]; [done|].
  cbn. unfold kv_of at 1. rewrite Hv. cbn. f_equal. exact IH.
Qed.

Lemma group_values_kv_of c g (df : DataFrame ykey) :
  group_values g (kv_of c <$> df) = column_cells c (filter (in_group g) df).
Proof.
  unfold group_values, column_cells.
  induction df as [|r df IH]; [done|].
  rewrite fmap_cons. destruct (decide (in_group g r)) as [Hg|Hg].
  - rewrite !filter_cons_True by done. rewrite !fmap_cons. by rewrite IH.
  - by rewrite !filter_cons_False.
Qed.

(** What line 114 and its four siblings compute on a table that has the
    column. *)
Lemma groupby_mean_eq c (df : DataFrame ykey) :
  Forall (λ r, is_Some (cols r !! c)) df →
  groupby_mean c df
  = Some ((λ g, Row g {[ c := mean (column_cells c (filter (in_group g) df)) ]})
            <$> group_keys ((λ r, group_of (key r)) <$> df)).
Proof.
  intros Hc. unfold groupby_mean, get_column.
  destruct (mapM_is_Some_2 (λ r : row ykey, cols r !! c) df) as [vs Hvs];
    [exact Hc|].
  rewrite Hvs. cbn. f_equal. apply mapM_Some_1 in Hvs.
  rewrite (zip_kv_of c df vs Hvs).
  rewrite <-list_fmap_compose.
  apply list_fmap_ext. intros _ g _.
  by rewrite group_values_kv_of.
Qed.

(** C7. On a table that has the column, the aggregation returns one row
    for each (fips, stover_removal) pair that occurs in the table and for
    no other; the row holds the mean of the cells of the rows with that
    pair, whatever their years, which for finite cells is their sum divided
    by their number; and a table with the same rows in another order gives
    the same result. *)
Theorem groupby_mean_spec (c : string) (df : DataFrame ykey) :
  Forall (λ r, is_Some (cols r !! c)) df →
  ∃ agg,
    groupby_mean c df = Some agg ∧
    NoDup (key <$> agg) ∧
    (∀ g, g ∈ key <$> agg ↔ ∃ r, r ∈ df ∧ in_group g r) ∧
    (∀ a, a ∈ agg →
       cols a = {[ c := mean (column_cells c (filter (in_group (key a)) df)) ]}) ∧
    (∀ a qs, a ∈ agg →
       column_cells c (filter (in_group (key a)) df) = Fin <$> qs →
       cols a !! c = Some (Fin (arith_mean qs))) ∧
    (∀ df', df' ≡ₚ df → groupby_mean c df' = Some agg).
Proof.
  intros Hc. rewrite groupby_mean_eq by done. eexists. split; [done|].
  set (keys := group_keys ((λ r, group_of (key r)) <$> df)).
  assert (Hkeys : ∀ g, g ∈ keys ↔ ∃ r, r ∈ df ∧ in_group g r).
  { intros g. unfold keys, group_keys.
    rewrite (sort_uniq_elem gkey_compare), list_elem_of_fmap.
    unfold in_group. split.
    - intros (r & -> & Hr). by exists r.
    - intros (r & Hr & <-). by exists r. }
  assert (Hrows : ∀ a,
    a ∈ (λ g, Row g {[ c := mean (column_cells c (filter (in_group g) df)) ]})
          <$> keys →
    key a ∈ keys ∧
    cols a = {[ c := mean (column_cells c (filter (in_group (key a)) df)) ]}).
  { intros a (g & -> & Hg)%list_elem_of_fmap. done. }
  split; [|split; [|split; [|split]]].
  - rewrite <-list_fmap_compose.
    rewrite (list_fmap_ext _ id keys) by done.
    rewrite list_fmap_id. apply (sort_uniq_NoDup gkey_compare).
  - intros g. rewrite <-Hkeys, <-list_fmap_compose.
    rewrite (list_fmap_ext _ id keys) by done.
    by rewrite list_fmap_id.
  - intros a Ha. by apply Hrows.
  - intros a qs Ha Hqs. destruct (Hrows a Ha) as [Hk ->].
    rewrite lookup_singleton_eq, Hqs. f_equal. apply mean_fin.
    intros ->. apply Hkeys in Hk as (r & Hr & Hg).
    assert (r ∈ filter (in_group (key a)) df) as Hin
      by by apply list_elem_of_filter.
    unfold column_cells in Hqs. destruct (filter _ df); [|done].
    by apply elem_of_nil in Hin.
  - intros df' Hperm. rewrite groupby_mean_eq by by rewrite Hperm.
    f_equal. unfold keys, group_keys.
    rewrite (sort_uniq_ext gkey_compare _ ((λ r, group_of (key r)) <$> df)).
    2:{ intros g. by rewrite Hperm. }
    apply list_fmap_ext. intros _ g _. do 2 f_equal.
    apply mean_perm. unfold column_cells. by rewrite Hperm.
Qed.

(** Two groups of corn yields, rows interleaved. *)
Lemma groupby_mean_spec_witness :
  ∃ agg,
    groupby_mean "grainyield_bu_ac"
      [corn_row 19001 "G" 2012 150; corn_row 19003 "G" 2012 140;
       corn_row 19001 "G" 2013 160] = Some agg ∧
    NoDup (key <$> agg) ∧
    (∀ g, g ∈ key <$> agg ↔
          ∃ r, r ∈ [corn_row 19001 "G" 2012 150; corn_row 19003 "G" 2012 140;
                    corn_row 19001 "G" 2013 160] ∧ in_group g r) ∧
    (∀ a, a ∈ agg →
       cols a = {[ "grainyield_bu_ac" :=
                     mean (column_cells "grainyield_bu_ac"
                             (filter (in_group (key a))
                                [corn_row 19001 "G" 2012 150;
                                 corn_row 19003 "G" 2012 140;
                                 corn_row 19001 "G" 2013 160])) ]}) ∧
    (∀ a qs, a ∈ agg →
       column_cells "grainyield_bu_ac"
         (filter (in_group (key a))
            [corn_row 19001 "G" 2012 150; corn_row 19003 "G" 2012 140;
             corn_row 19001 "G" 2013 160]) = Fin <$> qs →
       cols a !! "grainyield_bu_ac" = Some (Fin (arith_mean qs))) ∧
    (∀ df', df' ≡ₚ [corn_row 19001 "G" 2012 150; corn_row 19003 "G" 2012 140;
                    corn_row 19001 "G" 2013 160] →
       groupby_mean "grainyield_bu_ac" df' = Some agg).
Proof.
  apply (groupby_mean_spec "grainyield_bu_ac"
           [corn_row 19001 "G" 2012 150; corn_row 19003 "G" 2012 140;
            corn_row 19001 "G" 2013 160]).
  repeat constructor; by eexists.
Defined.

(** ** The corn yield of the end-to-end scenario *)

Lemma unit_convert_fmap {K} (src tgt : string) (factor : Qc)
    (df : DataFrame K) :
  Forall (λ r, is_Some (cols r !! src)) df →
  unit_convert src tgt factor df = Some (convert_row src tgt factor <$> df).
Proof.
  intros Hsrc. unfold unit_convert, get_column.
  destruct (mapM_is_Some_2 (λ r : row K, cols r !! src) df) as [vs Hvs];
    [exact Hsrc|].
  rewrite Hvs. cbn. f_equal. apply mapM_Some_1 in Hvs.
  induction Hvs as [|r v df vs Hv _ IH]; [done|].
  inversion_clear Hsrc as [|?? _ Hsrc'].
  cbn. unfold convert_row at 1. rewrite Hv. cbn. f_equal. by apply IH.
Qed.

Lemma filter_convert_row (src tgt : string) (factor : Qc) g
    (df : DataFrame ykey) :
  filter (in_group g) (convert_row src tgt factor <$> df)
  = convert_row src tgt factor <$> filter (in_group g) df.
Proof.
  induction df as [|r df IH]; [done|].
  rewrite fmap_cons. destruct (decide (in_group g r)) as [Hg|Hg].
  - rewrite !filter_cons_True by done. by rewrite fmap_cons, IH.
  - by rewrite !filter_cons_False.
Qed.

Lemma scenario_corn_yield_mean :
  mean [nmul (Fin (lit 150)) (Fin corn_factor);
        nmul (Fin (lit 160)) (Fin corn_factor);
        nmul (Fin (lit 155)) (Fin corn_factor);
        nmul (Fin (lit 158)) (Fin corn_factor)]
  = Fin scenario_corn_yield.
Proof. compute_done. Qed.

(** C6, as the script computes it.  In any corn table in which a (fips,
    stover_removal) pair has the years 2012 to 2015 with the yields 150,
    160, 155, 158 bu/acre, the converted and aggregated table has, for that
    pair, the corn yield mean(150, 160, 155, 158) x 25.4012 x 0.001 /
    0.404686 Mg/ha, which is 9.78 within 0.01. *)
Theorem corn_yield_scenario (corn_df : DataFrame ykey) (f : Z) (t : string)
    (c0 c1 c2 c3 : gmap string num) :
  Forall (λ r, is_Some (cols r !! "grainyield_bu_ac")) corn_df →
  filter (in_group (f, t)) corn_df
    ≡ₚ [Row (YKey f t 2012) c0; Row (YKey f t 2013) c1;
        Row (YKey f t 2014) c2; Row (YKey f t 2015) c3] →
  c0 !! "grainyield_bu_ac" = Some (Fin (lit 150)) →
  c1 !! "grainyield_bu_ac" = Some (Fin (lit 160)) →
  c2 !! "grainyield_bu_ac" = Some (Fin (lit 155)) →
  c3 !! "grainyield_bu_ac" = Some (Fin (lit 158)) →
  ∃ converted agg,
    convert_corn corn_df = Some converted ∧
    groupby_mean "corn_yield_Mg_ha-1" converted = Some agg ∧
    Row (f, t) {[ "corn_yield_Mg_ha-1" := Fin scenario_corn_yield ]} ∈ agg ∧
    (Qcabs (scenario_corn_yield - lit 9.78) <= lit 0.01)%Qc.
Proof.
  intros Hsrc Hperm H0 H1 H2 H3.
  unfold convert_corn. rewrite unit_convert_fmap by done.
  set (conv := convert_row "grainyield_bu_ac" "corn_yield_Mg_ha-1" corn_factor).
  eexists _, _. split; [done|].
  rewrite groupby_mean_eq.
  2:{ apply Forall_fmap, Forall_forall. intros r _. unfold conv. cbn.
      rewrite lookup_delete_ne by done. rewrite lookup_insert_eq. by eexists. }
  split; [done|]. split; [|compute_done].
  apply list_elem_of_fmap. exists (f, t). split.
  - do 2 f_equal. rewrite <-scenario_corn_yield_mean.
    apply mean_perm. unfold conv. rewrite filter_convert_row.
    unfold column_cells. rewrite Hperm. cbn.
    rewrite !lookup_delete_ne by done. rewrite !lookup_insert_eq.
    rewrite H0, H1, H2, H3. done.
  - apply (sort_uniq_elem gkey_compare), list_elem_of_fmap.
    assert (Row (YKey f t 2012) c0 ∈ filter (in_group (f, t)) corn_df) as Hin
      by (rewrite Hperm; left).
    apply list_elem_of_filter in Hin as [Hg Hin].
    exists (conv (Row (YKey f t 2012) c0)). split; [done|].
    apply list_elem_of_fmap. by eexists.
Qed.

(** The four rows of the scenario alone. *)
Lemma corn_yield_scenario_witness :
  ∃ converted agg,
    convert_corn
      [corn_row 19001 "G" 2012 150; corn_row 19001 "G" 2013 160;
       corn_row 19001 "G" 2014 155; corn_row 19001 "G" 2015 158]
    = Some converted ∧
    groupby_mean "corn_yield_Mg_ha-1" converted = Some agg ∧
    Row (19001, "G") {[ "corn_yield_Mg_ha-1" := Fin scenario_corn_yield ]}
      ∈ agg ∧
    (Qcabs (scenario_corn_yield - lit 9.78) <= lit 0.01)%Qc.
Proof.
  apply (corn_yield_scenario
           [corn_row 19001 "G" 2012 150; corn_row 19001 "G" 2013 160;
            corn_row 19001 "G" 2014 155; corn_row 19001 "G" 2015 158]
           19001 "G"
           {[ "grainyield_bu_ac" := Fin (lit 150) ]}
           {[ "grainyield_bu_ac" := Fin (lit 160) ]}
           {[ "grainyield_bu_ac" := Fin (lit 155) ]}
           {[ "grainyield_bu_ac" := Fin (lit 158) ]}).
  - repeat constructor; by eexists.
  - vm_compute. reflexivity.
  - reflexivity.
  - reflexivity.
  - reflexivity.
  - reflexivity.
Defined.

(** C6, as the specification words it, fails on the scenario itself: the
    aggregated corn yield of the four rows is not within 0.01 of 9.99. *)
Lemma corn_yield_scenario_not_9_99 :
  ∃ y,
    (convert_corn
       [corn_row 19001 "G" 2012 150; corn_row 19001 "G" 2013 160;
        corn_row 19001 "G" 2014 155; corn_row 19001 "G" 2015 158]
     ≫= groupby_mean "corn_yield_Mg_ha-1")
    = Some [Row (19001, "G") {[ "corn_yield_Mg_ha-1" := Fin y ]}] ∧
    y = scenario_corn_yield ∧
    ¬ (Qcabs (y - lit 9.99) <= lit 0.01)%Qc.
Proof.
  exists scenario_corn_yield. split; [compute_done|]. split; [done|].
  compute_done.
Qed.

(** ** The choropleth helper *)

Lemma linspace_nat (lo hi : Qc) (n : nat) :
  linspace lo hi (Z.of_nat n)
  = Some ((λ i, (lo + Qc_of_Z (Z.of_nat i)
                      * ((hi - lo) / Qc_of_Z (Z.of_nat n - 1)))%Qc)
            <$> seq 0 n).
Proof.
  unfold linspace. rewrite decide_False by lia. by rewrite Nat2Z.id.
Qed.

Lemma fips_mapping_nat (lo hi : Qc) (n : nat) (divergent reverse : bool) :
  ∃ pts,
    fips_mapping (lo, hi, Z.of_nat n) divergent reverse
    = Some {| binning_endpoints :=
                (λ i, (lo + Qc_of_Z (Z.of_nat i)
                            * ((hi - lo) / Qc_of_Z (Z.of_nat n - 1)))%Qc)
                <$> seq 0 n;
              round_legend_values :=
                if decide (hi < lit 10)%Qc then false else true;
              colorscale_points := pts |}.
Proof.
  unfold fips_mapping. rewrite linspace_nat. cbn.
  destruct divergent; cbn; [|by eexists].
  replace (Z.of_nat n + 1) with (Z.of_nat (S n)) by lia.
  rewrite linspace_nat. cbn. by eexists.
Qed.

(** C8. For every [(lo, hi, n)], [fips_mapping] hands [create_choropleth]
    [n] bin edges, evenly spaced from [lo] to [hi] inclusive, and a rounding
    flag that is true exactly when [hi >= 10]; for [(2, 4, 21)] the edges
    are 2, 2.1, ..., 4. *)
Theorem fips_mapping_bins :
  (∀ (lo hi : Qc) (n : nat) (divergent reverse : bool),
     ∃ args, fips_mapping (lo, hi, Z.of_nat n) divergent reverse = Some args ∧
             bins_spec lo hi n args) ∧
  (∀ divergent reverse : bool,
     ∃ args, fips_mapping (lit 2, lit 4, 21) divergent reverse = Some args ∧
             binning_endpoints args = edges_2_4_21).
Proof.
  split.
  - intros lo hi n divergent reverse.
    destruct (fips_mapping_nat lo hi n divergent reverse) as [pts ->].
    eexists. split; [done|]. unfold bins_spec. cbn.
    set (step := ((hi - lo) / Qc_of_Z (Z.of_nat n - 1))%Qc).
    assert (Hnth : ∀ i, (i < n)%nat →
              ((λ i, (lo + Qc_of_Z (Z.of_nat i) * step)%Qc) <$> seq 0 n) !! i
              = Some (lo + Qc_of_Z (Z.of_nat i) * step)%Qc).
    { intros i Hi. by rewrite list_lookup_fmap, lookup_seq_lt. }
    split; [by rewrite length_fmap, length_seq|].
    split; [exact Hnth|].
    split; [|split; [|split; [|split]]].
    + intros Hn. rewrite head_lookup, Hnth by lia. f_equal.
      change (Z.of_nat 0) with 0. rewrite Z2Qc_inj_0. ring.
    + intros Hn. rewrite last_lookup, length_fmap, length_seq, Hnth by lia.
      f_equal. unfold step.
      replace (Z.of_nat (Init.Nat.pred n)) with (Z.of_nat n - 1) by lia.
      field. rewrite <-Z2Qc_inj_0. intros Hz%Z2Qc_inj. lia.
    + intros i a b Ha Hb.
      assert ((S i < n)%nat) as Hi.
      { apply lookup_lt_Some in Hb. by rewrite length_fmap, length_seq in Hb. }
      rewrite Hnth in Ha, Hb by lia. injection Ha as <-. injection Hb as <-.
      replace (Z.of_nat (S i)) with (Z.of_nat i + 1) by lia.
      rewrite Z2Qc_inj_add, Z2Qc_inj_1. ring.
    + destruct (decide (hi < lit 10)%Qc) as [Hlt|Hge].
      * split; [done|]. intros Hle. by apply Qcle_not_lt in Hle.
      * split; [|done]. intros _. by apply Qcnot_lt_le.
    + destruct (decide (hi < lit 10)%Qc) as [Hlt|Hge]; [done|].
      split; [done|]. intros Hlt. done.
  - intros divergent reverse.
    destruct (fips_mapping_nat (lit 2) (lit 4) 21 divergent reverse)
      as [pts Hargs].
    change (Z.of_nat 21) with 21 in Hargs. rewrite Hargs.
    eexists. split; [done|]. cbn [binning_endpoints]. compute_done.
Qed.

(** The spacing of the 21 edges of [(2, 4, 21)], 0.1, and their rounding
    flag. *)
Lemma fips_mapping_bins_witness :
  ∃ args, fips_mapping (lit 2, lit 4, 21) false false = Some args ∧
          bins_spec (lit 2) (lit 4) 21 args ∧
          ((lit 4 - lit 2) / Qc_of_Z (Z.of_nat 21 - 1))%Qc = lit 0.1 ∧
          round_legend_values args = false.
Proof.
  destruct fips_mapping_bins as [Hgen _].
  destruct (Hgen (lit 2) (lit 4) 21%nat false false) as (args & Hargs & Hspec).
  exists args. split; [exact Hargs|]. split; [exact Hspec|].
  split; [compute_done|].
  destruct Hspec as (_ & _ & _ & _ & _ & _ & Hround).
  apply Hround. compute_done.
Defined.

(** C9, as the specification words it, fails: for [(2, 4, 21)] the rounding
    flag is not set. *)
Lemma legend_rounding_2_4_21_not_set :
  ¬ ∃ args, fips_mapping (lit 2, lit 4, 21) false false = Some args ∧
            round_legend_values args = true.
Proof.
  intros (args & Hargs & Hround).
  assert (fips_mapping (lit 2, lit 4, 21) false false
          = Some {| binning_endpoints := edges_2_4_21;
                    round_legend_values := false;
                    colorscale_points := None |}) as Heq by compute_done.
  rewrite Heq in Hargs. injection Hargs as <-. done.
Qed.

(** C9, as the script computes it.  For [(2, 4, 21)] the legend values are
    not rounded: the upper end 4 is below 10, and the flag is set only when
    the upper end is at least 10. *)
Theorem legend_rounding_2_4_21 :
  (∀ divergent reverse : bool,
     ∃ args, fips_mapping (lit 2, lit 4, 21) divergent reverse = Some args ∧
             round_legend_values args = false) ∧
  (∀ (lo hi : Qc) (n : nat) (divergent reverse : bool) args,
     fips_mapping (lo, hi, Z.of_nat n) divergent reverse = Some args →
     (round_legend_values args = true ↔ (lit 10 <= hi)%Qc)).
Proof.
  split.
  - intros divergent reverse.
    destruct (fips_mapping_nat (lit 2) (lit 4) 21 divergent reverse)
      as [pts Hargs].
    change (Z.of_nat 21) with 21 in Hargs. rewrite Hargs.
    eexists. split; [done|]. cbn [round_legend_values]. compute_done.
  - intros lo hi n divergent reverse args.
    destruct (fips_mapping_nat lo hi n divergent reverse) as [pts ->].
    intros [= <-]. cbn.
    destruct (decide (hi < lit 10)%Qc) as [Hlt|Hge].
    + split; [done|]. intros Hle. by apply Qcle_not_lt in Hle.
    + split; [|done]. intros _. by apply Qcnot_lt_le.
Qed.

(** The first call of the script, line 200. *)
Lemma legend_rounding_2_4_21_witness :
  ∃ args, fips_mapping (lit 2, lit 4, 21) false false = Some args ∧
          round_legend_values args = false ∧
          (round_legend_values args = true ↔ (lit 10 <= lit 4)%Qc).
Proof.
  destruct legend_rounding_2_4_21 as [Hcall Hrule].
  destruct (Hcall false false) as (args & Hargs & Hround).
  exists args. split; [exact Hargs|]. split; [exact Hround|].
  exact (Hrule (lit 2) (lit 4) 21%nat false false args Hargs).
Defined.

(** ** Merge *)

Lemma elem_of_merge (left right : DataFrame gkey) x :
  x ∈ merge left right ↔
  ∃ l r, l ∈ left ∧ r ∈ right ∧ key r = key l ∧
         x = Row (key l) (cols l ∪ cols r).
Proof.
  unfold merge. rewrite list_elem_of_bind. split.
  - intros (l & Hx & Hl). apply list_elem_of_fmap in Hx as (r & -> & Hr).
    apply list_elem_of_filter in Hr as [Hk Hr]. by exists l, r.
  - intros (l & r & Hl & Hr & Hk & ->). exists l. split; [|done].
    apply list_elem_of_fmap. exists r. split; [done|].
    by apply list_elem_of_filter.
Qed.

(** The keys of a merge are the keys of both sides. *)
Lemma merge_keys (left right : DataFrame gkey) k :
  k ∈ key <$> merge left right ↔ k ∈ key <$> left ∧ k ∈ key <$> right.
Proof.
  rewrite !list_elem_of_fmap. split.
  - intros (x & -> & (l & r & Hl & Hr & Hk & ->)%elem_of_merge). cbn. split.
    + by exists l.
    + exists r. by rewrite Hk.
  - intros [(l & -> & Hl) (r & Hk & Hr)].
    exists (Row (key l) (cols l ∪ cols r)). split; [done|].
    apply elem_of_merge. by exists l, r.
Qed.

Lemma filter_key_NoDup (right : DataFrame gkey) k :
  NoDup (key <$> right) →
  (length (filter (λ r, key r = k) right) ≤ 1)%nat.
Proof.
  induction right as [|r right IH]; [cbn; lia|].
  rewrite fmap_cons, NoDup_cons. intros [Hr Hnd].
  rewrite filter_cons. destruct (decide (key r = k)) as [<-|]; [|by apply IH].
  rewrite filter_none; [cbn; lia|].
  intros y Hy Hk. apply Hr. rewrite <-Hk. apply list_elem_of_fmap. by exists y.
Qed.

Lemma merge_NoDup (left right : DataFrame gkey) :
  NoDup (key <$> left) → NoDup (key <$> right) →
  NoDup (key <$> merge left right).
Proof.
  intros Hl Hr. induction left as [|l left IH]; [constructor|].
  rewrite fmap_cons, NoDup_cons in Hl. destruct Hl as [Hl Hnd].
  unfold merge. rewrite bind_cons, fmap_app. apply NoDup_app.
  split; [|split].
  - pose proof (filter_key_NoDup right (key l) Hr) as Hlen.
    destruct (filter _ right) as [|r [|r' rs]]; cbn in *;
      [constructor|apply NoDup_singleton|lia].
  - intros k (x & -> & (r & -> & _)%list_elem_of_fmap)%list_elem_of_fmap.
    cbn [key]. intros [? _]%(merge_keys left right). done.
  - by apply IH.
Qed.

(** The rows of a table of means have distinct keys and the one column. *)
Lemma groupby_mean_shape c (df : DataFrame ykey) agg :
  groupby_mean c df = Some agg →
  NoDup (key <$> agg) ∧ ∀ r, r ∈ agg → ∃ v, cols r = {[ c := v ]}.
Proof.
  unfold groupby_mean. destruct (get_column c df) as [vs|]; [|done].
  cbn. intros [= <-]. split.
  - rewrite <-list_fmap_compose.
    rewrite (list_fmap_ext _ id (group_keys _)) by done.
    rewrite list_fmap_id. apply (sort_uniq_NoDup gkey_compare).
  - intros r (g & -> & _)%list_elem_of_fmap. by eexists.
Qed.

(** C4. The merged table has a row for a (fips, stover_removal) pair
    exactly when each of the five aggregated tables has one, so a pair that
    one table lacks is absent; it has one row per pair; and each row holds
    the five value columns as they are in the aggregated tables, and
    nothing else. *)
Theorem merge_inner_join
    (corn_df soy_df stover_df soc_df n2o_df : DataFrame ykey)
    (corn soy stover soc n2o : DataFrame gkey) :
  groupby_mean "corn_yield_Mg_ha-1" corn_df = Some corn →
  groupby_mean "soy_yield_Mg_ha-1" soy_df = Some soy →
  groupby_mean "stover_yield_Mg_ha-1" stover_df = Some stover →
  groupby_mean "dSOC_MgC_ha-1" soc_df = Some soc →
  groupby_mean "N2O_MgN_ha-1" n2o_df = Some n2o →
  ∃ df,
    aggregate_and_merge corn_df soy_df stover_df soc_df n2o_df = Some df ∧
    (∀ k, k ∈ key <$> df ↔
          k ∈ key <$> corn ∧ k ∈ key <$> soy ∧ k ∈ key <$> stover ∧
          k ∈ key <$> soc ∧ k ∈ key <$> n2o) ∧
    NoDup (key <$> df) ∧
    (∀ r, r ∈ df →
       ∃ r1 r2 r3 r4 r5,
         r1 ∈ corn ∧ r2 ∈ soy ∧ r3 ∈ stover ∧ r4 ∈ soc ∧ r5 ∈ n2o ∧
         merged_from r r1 r2 r3 r4 r5).
Proof.
  intros H1 H2 H3 H4 H5. unfold aggregate_and_merge.
  rewrite H1, H2, H3, H4, H5. cbn. eexists. split; [done|].
  apply groupby_mean_shape in H1 as [N1 C1], H2 as [N2 C2], H3 as [N3 C3],
    H4 as [N4 C4], H5 as [N5 C5].
  unfold merge_all. split; [|split].
  - intros k. rewrite !merge_keys. tauto.
  - by repeat apply merge_NoDup.
  - intros r (x4 & r5 & Hx4 & Hr5 & K5 & ->)%elem_of_merge.
    apply elem_of_merge in Hx4 as (x3 & r4 & Hx3 & Hr4 & K4 & ->).
    apply elem_of_merge in Hx3 as (x2 & r3 & Hx2 & Hr3 & K3 & ->).
    apply elem_of_merge in Hx2 as (r1 & r2 & Hr1 & Hr2 & K2 & ->).
    cbn in *. exists r1, r2, r3, r4, r5. repeat (split; [done|]).
    destruct (C1 _ Hr1) as [v1 E1], (C2 _ Hr2) as [v2 E2],
      (C3 _ Hr3) as [v3 E3], (C4 _ Hr4) as [v4 E4], (C5 _ Hr5) as [v5 E5].
    unfold merged_from. cbn. rewrite E1, E2, E3, E4, E5.
    repeat (split; [done|]).
    intros c. unfold value_columns. rewrite !elem_of_cons, elem_of_nil.
    rewrite !lookup_union_is_Some, !lookup_singleton_is_Some.
    split; [intros [->|[->|[->|[->|[->|[]]]]]]|intros [[[[<-|<-]|<-]|<-]|<-]];
      tauto.
Qed.

(** County 19001 is in the five tables, county 19003 in four of them: the
    N2O table lacks it. *)
Lemma merge_inner_join_witness :
  ∃ df,
    aggregate_and_merge
      [value_row "corn_yield_Mg_ha-1" 19001 "G" 2012 10;
       value_row "corn_yield_Mg_ha-1" 19003 "G" 2012 9]
      [value_row "soy_yield_Mg_ha-1" 19001 "G" 2013 3;
       value_row "soy_yield_Mg_ha-1" 19003 "G" 2013 3]
      [value_row "stover_yield_Mg_ha-1" 19001 "G" 2012 0;
       value_row "stover_yield_Mg_ha-1" 19003 "G" 2012 0]
      [value_row "dSOC_MgC_ha-1" 19001 "G" 2012 0.2;
       value_row "dSOC_MgC_ha-1" 19003 "G" 2012 0.1]
      [value_row "N2O_MgN_ha-1" 19001 "G" 2012 0.002]
    = Some df ∧
    (19001, "G") ∈ key <$> df ∧
    ((19003, "G") ∉ (key <$> df)).
Proof.
  destruct (merge_inner_join
      [value_row "corn_yield_Mg_ha-1" 19001 "G" 2012 10;
       value_row "corn_yield_Mg_ha-1" 19003 "G" 2012 9]
      [value_row "soy_yield_Mg_ha-1" 19001 "G" 2013 3;
       value_row "soy_yield_Mg_ha-1" 19003 "G" 2013 3]
      [value_row "stover_yield_Mg_ha-1" 19001 "G" 2012 0;
       value_row "stover_yield_Mg_ha-1" 19003 "G" 2012 0]
      [value_row "dSOC_MgC_ha-1" 19001 "G" 2012 0.2;
       value_row "dSOC_MgC_ha-1" 19003 "G" 2012 0.1]
      [value_row "N2O_MgN_ha-1" 19001 "G" 2012 0.002]
      [mean_row "corn_yield_Mg_ha-1" 19001 "G" 10;
       mean_row "corn_yield_Mg_ha-1" 19003 "G" 9]
      [mean_row "soy_yield_Mg_ha-1" 19001 "G" 3;
       mean_row "soy_yield_Mg_ha-1" 19003 "G" 3]
      [mean_row "stover_yield_Mg_ha-1" 19001 "G" 0;
       mean_row "stover_yield_Mg_ha-1" 19003 "G" 0]
      [mean_row "dSOC_MgC_ha-1" 19001 "G" 0.2;
       mean_row "dSOC_MgC_ha-1" 19003 "G" 0.1]
      [mean_row "N2O_MgN_ha-1" 19001 "G" 0.002])
    as (df & Hdf & Hkeys & _).
  - apply (bool_decide_unpack _). vm_compute. exact I.
  - apply (bool_decide_unpack _). vm_compute. exact I.
  - apply (bool_decide_unpack _). vm_compute. exact I.
  - apply (bool_decide_unpack _). vm_compute. exact I.
  - apply (bool_decide_unpack _). vm_compute. exact I.
  - exists df. split; [exact Hdf|]. split.
    + apply Hkeys. repeat split; apply (bool_decide_unpack _); vm_compute;
        exact I.
    + intros (_ & _ & _ & _ & Hn2o)%Hkeys. revert Hn2o.
      apply (bool_decide_unpack _). vm_compute. exact I.
Defined.

(** ** Pivot and the relative columns *)

Lemma mapM_default {A B} (f : A → option B) (d : B) (l : list A) :
  (∀ x, x ∈ l → is_Some (f x)) →
  mapM f l = Some ((λ x, default d (f x)) <$> l).
Proof.
  intros Hl. apply mapM_Some_2, Forall2_fmap_r, Forall_Forall2_diag.
  apply Forall_forall. intros x Hx. cbn.
  destruct (Hl x Hx) as [y Hy]. by rewrite Hy.
Qed.

Lemma pget_rectangular p v t :
  rectangular p → (v, t) ∈ pcolumns p →
  pget v t p = Some ((λ r, at_cell r v t) <$> prows p).
Proof.
  intros Hp Hc. unfold pget. rewrite decide_True by done.
  apply mapM_default. intros r Hr. by apply Hp.
Qed.

Lemma passign_fmap name (h : prow → num) p :
  passign name (h <$> prows p) p
  = add_column name
      (λ r, PRow (pindex r) (<[(name, "") := h r]> (pcells r))) p.
Proof.
  unfold passign, add_column. f_equal.
  rewrite zip_with_fmap_r. apply zip_with_diag.
Qed.

Lemma relative_eq name v t p :
  rectangular p → (v, t) ∈ pcolumns p → (v, "G") ∈ pcolumns p →
  relative name v t p = Some (add_column name (relative_row name v t) p).
Proof.
  intros Hp Ht HG. unfold relative.
  rewrite !pget_rectangular by done. cbn. f_equal.
  rewrite zip_with_fmap_l, zip_with_fmap_r, zip_with_diag.
  apply (passign_fmap name (λ r, nsub (at_cell r v t) (at_cell r v "G"))).
Qed.

Lemma add_column_columns name f p c :
  c ∈ pcolumns (add_column name f p) ↔ c ∈ pcolumns p ∨ c = (name, "").
Proof.
  unfold add_column. cbn. destruct (decide ((name, "") ∈ pcolumns p)).
  - split; [by left|]. by intros [?| ->].
  - rewrite elem_of_app, list_elem_of_singleton. done.
Qed.

(** A row function that writes the cell [(name, "")] and keeps the other
    cells keeps the table rectangular. *)
Lemma add_column_rectangular name f p :
  (∀ r, is_Some (pcells (f r) !! (name, ""))) →
  (∀ r c, is_Some (pcells r !! c) → is_Some (pcells (f r) !! c)) →
  rectangular p → rectangular (add_column name f p).
Proof.
  intros Hnew Hold Hp r c Hr Hc. cbn in Hr.
  apply list_elem_of_fmap in Hr as (r0 & -> & Hr0).
  apply add_column_columns in Hc as [Hc| ->]; [|done].
  apply Hold. by apply Hp.
Qed.

Lemma relative_row_new name v t r :
  is_Some (pcells (relative_row name v t r) !! (name, "")).
Proof. cbn. rewrite lookup_insert_eq. by eexists. Qed.

Lemma relative_row_old name v t r c :
  is_Some (pcells r !! c) → is_Some (pcells (relative_row name v t r) !! c).
Proof. cbn. rewrite lookup_insert_is_Some'. by right. Qed.

Lemma relative_rectangular name v t p :
  rectangular p → rectangular (add_column name (relative_row name v t) p).
Proof.
  apply add_column_rectangular;
    [apply relative_row_new|apply relative_row_old].
Qed.

Lemma add_column_columns_old name f p c :
  c ∈ pcolumns p → c ∈ pcolumns (add_column name f p).
Proof. intros Hc. apply add_column_columns. by left. Qed.

Lemma add_column_columns_new name f p :
  (name, "") ∈ pcolumns (add_column name f p).
Proof. apply add_column_columns. by right. Qed.

Lemma ratio_eq p :
  rectangular p →
  ("dSOC_G25S_relative", "") ∈ pcolumns p →
  ("stover_yield_Mg_ha-1", "G25S") ∈ pcolumns p →
  (a ← pget "dSOC_G25S_relative" "" p;
   b ← pget "stover_yield_Mg_ha-1" "G25S" p;
   Some (passign "dSOC_MgStover" (zip_with ndiv a b) p))
  = Some (add_column "dSOC_MgStover" ratio_row p).
Proof.
  intros Hp Ha Hb. rewrite !pget_rectangular by done. cbn. f_equal.
  rewrite zip_with_fmap_l, zip_with_fmap_r, zip_with_diag.
  apply (passign_fmap "dSOC_MgStover"
           (λ r, ndiv (at_cell r "dSOC_G25S_relative" "")
                      (at_cell r "stover_yield_Mg_ha-1" "G25S"))).
Qed.

(** Membership in a list of literals. *)
Ltac in_list :=
  repeat first [apply list_elem_of_here | apply list_elem_of_further].

(** The columns that lines 135-141 read are columns of the merged table. *)
Lemma read_columns_values v :
  v ∈ ["dSOC_MgC_ha-1"; "N2O_MgN_ha-1"; "stover_yield_Mg_ha-1"] →
  v ∈ value_columns.
Proof.
  rewrite !elem_of_cons, elem_of_nil. unfold value_columns.
  intros [->|[->|[->|[]]]]; in_list.
Qed.

(** The side conditions of one assignment: the table is still rectangular,
    and a column of the pivot is still there. *)
Ltac still_rectangular := repeat apply relative_rectangular; assumption.
Ltac still_column H :=
  repeat apply add_column_columns_old; apply H; unfold treatments; in_list.
Ltac assign_relative H :=
  rewrite relative_eq by first [still_rectangular | still_column H];
  cbn [mbind option_bind].

(** Lines 135-141 on a rectangular table that has the columns they read:
    no [KeyError], and each row is derived on its own. *)
Lemma relative_columns_eq p :
  rectangular p →
  (∀ v t, v ∈ ["dSOC_MgC_ha-1"; "N2O_MgN_ha-1"; "stover_yield_Mg_ha-1"] →
          t ∈ treatments → (v, t) ∈ pcolumns p) →
  ∃ q, relative_columns p = Some q ∧ prows q = derive_row <$> prows p.
Proof.
  intros Hp Hcols. unfold relative_columns.
  assert (Hbase : ∀ v t,
            v ∈ ["dSOC_MgC_ha-1"; "N2O_MgN_ha-1"; "stover_yield_Mg_ha-1"] →
            t ∈ treatments → (v, t) ∈ pcolumns p) by exact Hcols.
  do 6 assign_relative Hbase.
  rewrite ratio_eq.
  - eexists. split; [done|]. cbn [prows add_column].
    rewrite <-!list_fmap_compose. done.
  - still_rectangular.
  - do 5 apply add_column_columns_old. apply add_column_columns_new.
  - still_column Hbase.
Qed.

Lemma derive_row_index r : pindex (derive_row r) = pindex r.
Proof. done. Qed.

(** The derived cells of a row, from its cells before line 135. *)
Lemma derive_row_cells r :
  let rel v t := nsub (at_cell r v t) (at_cell r v "G") in
  pcells (derive_row r) !! ("dSOC_G25S_relative", "")
    = Some (rel "dSOC_MgC_ha-1" "G25S") ∧
  pcells (derive_row r) !! ("dSOC_G50S_relative", "")
    = Some (rel "dSOC_MgC_ha-1" "G50S") ∧
  pcells (derive_row r) !! ("dSOC_G75S_relative", "")
    = Some (rel "dSOC_MgC_ha-1" "G75S") ∧
  pcells (derive_row r) !! ("dN2O_G25S_relative", "")
    = Some (rel "N2O_MgN_ha-1" "G25S") ∧
  pcells (derive_row r) !! ("dN2O_G50S_relative", "")
    = Some (rel "N2O_MgN_ha-1" "G50S") ∧
  pcells (derive_row r) !! ("dN2O_G75S_relative", "")
    = Some (rel "N2O_MgN_ha-1" "G75S") ∧
  pcells (derive_row r) !! ("dSOC_MgStover", "")
    = Some (ndiv (rel "dSOC_MgC_ha-1" "G25S")
                 (at_cell r "stover_yield_Mg_ha-1" "G25S")).
Proof.
  unfold derive_row, ratio_row, relative_row, at_cell. cbn [pcells pindex].
  repeat split;
    repeat first [rewrite lookup_insert_eq | rewrite lookup_insert_ne by done];
    done.
Qed.

Lemma elem_of_columns (values ts : list string) v t :
  (v, t) ∈ (v ← values; t ← ts; [(v, t)]) ↔ v ∈ values ∧ t ∈ ts.
Proof.
  rewrite list_elem_of_bind. split.
  - intros (v' & (t' & Heq & Ht)%list_elem_of_bind & Hv).
    apply list_elem_of_singleton in Heq as [= -> ->]. done.
  - intros [Hv Ht]. exists v. split; [|done].
    apply list_elem_of_bind. exists t. split; [|done].
    by apply list_elem_of_singleton.
Qed.

Lemma pivot_row_cell df columns f c :
  c ∈ columns →
  pcells (pivot_row df columns f) !! c = Some (cell df f c.2 c.1).
Proof.
  intros Hc. cbn. apply elem_of_list_to_map_1'.
  - by intros y (c' & [= <- ->] & _)%list_elem_of_fmap.
  - apply list_elem_of_fmap. by exists c.
Qed.

Lemma head_filter_index (G : Z → prow) (index : list Z) f :
  (∀ x, pindex (G x) = x) → f ∈ index →
  head (filter (λ r, pindex r = f) (G <$> index)) = Some (G f).
Proof.
  intros HG. induction index as [|x index IH]; [by intros ?%elem_of_nil|].
  intros Hf. rewrite fmap_cons, filter_cons. rewrite HG.
  destruct (decide (x = f)) as [->|Hne]; [done|].
  apply IH. by apply elem_of_cons in Hf as [->|Hf].
Qed.

(** Lines 131-141 on a merged table in which each pair occurs once and each
    treatment occurs: a table with one row per county, in ascending order,
    whose derived cells are those of the specification. *)
Lemma pivoted_df_cells (df : DataFrame gkey) :
  NoDup (key <$> df) →
  (∀ t, t ∈ treatments → treatment_occurs df t) →
  ∃ p, pivoted_df df = Some p ∧
       pindex <$> prows p = sort_uniq Z.compare ((λ r, (key r).1) <$> df) ∧
       ∀ f, county_occurs df f → derived_cells df p f.
Proof.
  intros Hnd Hts. unfold pivoted_df, pivot. rewrite decide_True by done.
  cbn [mbind option_bind].
  set (index := sort_uniq Z.compare ((λ r, (key r).1) <$> df)).
  set (ts := sort_uniq String.compare ((λ r, (key r).2) <$> df)).
  set (columns := v ← value_columns; t ← ts; [(v, t)]).
  assert (Hcols : ∀ v t, v ∈ value_columns → t ∈ treatments →
            (v, t) ∈ columns).
  { intros v t Hv Ht. apply elem_of_columns. split; [done|].
    apply (sort_uniq_elem String.compare), list_elem_of_fmap.
    destruct (Hts t Ht) as (r & Hr & <-). by exists r. }
  destruct (relative_columns_eq
              {| pcolumns := columns; prows := pivot_row df columns <$> index |})
    as (q & Hq & Hrows).
  { intros r c (f & -> & _)%list_elem_of_fmap Hc.
    rewrite pivot_row_cell by done. by eexists. }
  { intros v t Hv Ht. apply Hcols; [|done]. by apply read_columns_values. }
  exists q. split; [exact Hq|]. cbn [prows] in Hrows. split.
  - rewrite Hrows, <-!list_fmap_compose.
    rewrite (list_fmap_ext _ id index) by done. apply list_fmap_id.
  - intros f (r & Hr & Hf).
    assert (f ∈ index) as Hin.
    { apply (sort_uniq_elem Z.compare), list_elem_of_fmap. by exists r. }
    assert (∀ name, pcell q f name ""
              = pcells (derive_row (pivot_row df columns f)) !! (name, ""))
      as Hcell.
    { intros name. unfold pcell. rewrite Hrows, <-list_fmap_compose.
      by rewrite (head_filter_index (derive_row ∘ pivot_row df columns)). }
    assert (∀ v t, v ∈ value_columns → t ∈ treatments →
              at_cell (pivot_row df columns f) v t = cell df f t v) as Hat.
    { intros v t Hv Ht. unfold at_cell.
      by rewrite pivot_row_cell by by apply Hcols. }
    unfold derived_cells. rewrite !Hcell.
    pose proof (derive_row_cells (pivot_row df columns f)) as Hd.
    cbn zeta in Hd.
    rewrite !Hat in Hd by (unfold value_columns, treatments; in_list).
    exact Hd.
Qed.

Lemma pivoted_df_index (df : DataFrame gkey) p :
  pindex <$> prows p = sort_uniq Z.compare ((λ r, (key r).1) <$> df) →
  NoDup (pindex <$> prows p) ∧
  ∀ f, f ∈ pindex <$> prows p ↔ county_occurs df f.
Proof.
  intros ->. split; [apply (sort_uniq_NoDup Z.compare)|].
  intros f. rewrite (sort_uniq_elem Z.compare), list_elem_of_fmap.
  unfold county_occurs. split.
  - intros (r & -> & Hr). by exists r.
  - intros (r & Hr & <-). by exists r.
Qed.

(** C5. On a merged table in which each (fips, stover_removal) pair occurs
    once and each of the four treatments occurs, lines 131-141 return a
    table with one row per county in which, for the soil-carbon change and
    for nitrous oxide and each of G25S, G50S, G75S, the relative column
    holds the county's aggregated value under that treatment minus its
    value under G, and dSOC_MgStover holds the relative soil-carbon change
    at G25S divided by the stover yield at G25S. *)
Theorem relative_columns_correct (df : DataFrame gkey) :
  NoDup (key <$> df) →
  (∀ t, t ∈ treatments → treatment_occurs df t) →
  ∃ p, pivoted_df df = Some p ∧
       NoDup (pindex <$> prows p) ∧
       (∀ f, f ∈ pindex <$> prows p ↔ county_occurs df f) ∧
       (∀ f, county_occurs df f → derived_cells df p f).
Proof.
  intros Hnd Hts.
  destruct (pivoted_df_cells df Hnd Hts) as (p & Hp & Hindex & Hcells).
  exists p. split; [exact Hp|].
  destruct (pivoted_df_index df p Hindex) as [Hnodup Hcounties]. done.
Qed.

Lemma two_counties_treatments t :
  t ∈ treatments → treatment_occurs two_counties t.
Proof.
  unfold treatments. rewrite !elem_of_cons, elem_of_nil.
  intros [->|[->|[->|[->|[]]]]].
  - exists (merged_row 19001 "G" 10 3 0 0.2 0.002).
    split; [unfold two_counties; in_list|done].
  - exists (merged_row 19001 "G25S" 10 3 2 0.1 0.003).
    split; [unfold two_counties; in_list|done].
  - exists (merged_row 19001 "G50S" 10 3 4 0 0.004).
    split; [unfold two_counties; in_list|done].
  - exists (merged_row 19001 "G75S" 10 3 6 (-0.1) 0.005).
    split; [unfold two_counties; in_list|done].
Qed.

(** The table of two counties. *)
Lemma relative_columns_correct_witness :
  ∃ p, pivoted_df two_counties = Some p ∧
       NoDup (pindex <$> prows p) ∧
       (∀ f, f ∈ pindex <$> prows p ↔ county_occurs two_counties f) ∧
       (∀ f, county_occurs two_counties f → derived_cells two_counties p f).
Proof.
  apply (relative_columns_correct two_counties).
  - apply (bool_decide_unpack _). vm_compute. exact I.
  - exact two_counties_treatments.
Defined.

Lemma cell_missing (df : DataFrame gkey) f t v :
  (f, t) ∉ key <$> df → cell df f t v = NaN.
Proof.
  intros Hk. unfold cell. rewrite filter_none; [done|].
  intros r Hr Hkey. apply Hk, list_elem_of_fmap. by exists r.
Qed.

(** C10, as the script computes it.  When each pair occurs once and each
    of the four treatments occurs in some county, lines 131-141 raise
    nothing; a county without the baseline G has a missing value in each of
    its seven derived cells; and the derived cells of every county are
    computed from the cells of that county alone. *)
Theorem missing_baseline_propagates (df : DataFrame gkey) (f : Z) :
  NoDup (key <$> df) →
  (∀ t, t ∈ treatments → treatment_occurs df t) →
  county_occurs df f →
  (f, "G") ∉ key <$> df →
  ∃ p, pivoted_df df = Some p ∧
       (∀ name, name ∈ derived_names → pcell p f name "" = Some NaN) ∧
       (∀ f', county_occurs df f' → derived_cells df p f').
Proof.
  intros Hnd Hts Hf HG.
  destruct (pivoted_df_cells df Hnd Hts) as (p & Hp & _ & Hcells).
  exists p. split; [exact Hp|]. split; [|exact Hcells].
  destruct (Hcells f Hf) as (H1 & H2 & H3 & H4 & H5 & H6 & H7).
  rewrite !(cell_missing df f "G") in * by done.
  rewrite !nsub_nan in *. cbn [ndiv] in H7.
  intros name. unfold derived_names. rewrite !elem_of_cons, elem_of_nil.
  intros [->|[->|[->|[->|[->|[->|[->|[]]]]]]]]; assumption.
Qed.

(** County 19003 of the table of two counties has no baseline. *)
Lemma missing_baseline_propagates_witness :
  ∃ p, pivoted_df two_counties = Some p ∧
       (∀ name, name ∈ derived_names → pcell p 19003 name "" = Some NaN) ∧
       (∀ f', county_occurs two_counties f' →
              derived_cells two_counties p f').
Proof.
  apply (missing_baseline_propagates two_counties 19003).
  - apply (bool_decide_unpack _). vm_compute. exact I.
  - exact two_counties_treatments.
  - exists (merged_row 19003 "G25S" 9 3 2 0.1 0.003).
    split; [unfold two_counties; in_list|done].
  - apply (bool_decide_unpack _). vm_compute. exact I.
Defined.

(** C10, as the specification words it, fails: when no county has the
    baseline, line 135 raises a [KeyError] instead of writing missing
    values. *)
Lemma missing_baseline_everywhere_raises :
  ((19003, "G") ∉ (key <$> no_baseline)) ∧ pivoted_df no_baseline = None.
Proof. split; compute_done. Qed.

(** ** The script, top to bottom *)

(** The merged table has each (fips, stover_removal) pair once, so the
    pivot at line 131 never raises its [ValueError]. *)
Lemma aggregate_and_merge_NoDup
    (corn_df soy_df stover_df soc_df n2o_df : DataFrame ykey) df :
  aggregate_and_merge corn_df soy_df stover_df soc_df n2o_df = Some df →
  NoDup (key <$> df).
Proof.
  unfold aggregate_and_merge.
  destruct (groupby_mean _ corn_df) as [corn|] eqn:H1; [|done].
  destruct (groupby_mean _ soy_df) as [soy|] eqn:H2; [|done].
  destruct (groupby_mean _ stover_df) as [stover|] eqn:H3; [|done].
  destruct (groupby_mean _ soc_df) as [soc|] eqn:H4; [|done].
  destruct (groupby_mean _ n2o_df) as [n2o|] eqn:H5; [|done].
  cbn. intros [= <-].
  apply groupby_mean_shape in H1 as [N1 _], H2 as [N2 _], H3 as [N3 _],
    H4 as [N4 _], H5 as [N5 _].
  unfold merge_all. by repeat apply merge_NoDup.
Qed.

Lemma pivot_merged
    (corn_df soy_df stover_df soc_df n2o_df : DataFrame ykey) df :
  aggregate_and_merge corn_df soy_df stover_df soc_df n2o_df = Some df →
  is_Some (pivot value_columns df).
Proof.
  intros Hdf%aggregate_and_merge_NoDup. unfold pivot.
  rewrite decide_True by done. by eexists.
Qed.

(** When the script runs to line 142 on tables in which each treatment
    occurs, the derived cells of every county of the merged table are those
    of the specification. *)
Lemma postprocess_derived_cells (i : inputs) (o : outputs) :
  postprocess i = Some o →
  (∀ t, t ∈ treatments → treatment_occurs (df o) t) →
  ∀ f, county_occurs (df o) f → derived_cells (df o) (pivoted o) f.
Proof.
  unfold postprocess. intros Hrun Hts.
  destruct (convert_area _) as [area|]; [|done].
  destruct (convert_corn _) as [corn|]; [|done].
  destruct (convert_soy _) as [soy|]; [|done].
  destruct (convert_stover _) as [stover|]; [|done].
  destruct (convert_soc _) as [soc|]; [|done].
  destruct (convert_n2o _) as [n2o|]; [|done].
  cbn in Hrun. destruct (soc_annual_diff soc) as [dsoc|]; [|done].
  cbn in Hrun.
  destruct (aggregate_and_merge corn soy stover dsoc n2o) as [m|] eqn:Hm;
    [|done].
  cbn in Hrun. destruct (pivoted_df m) as [p|] eqn:Hp; [|done].
  cbn in Hrun. injection Hrun as <-. cbn in *.
  destruct (pivoted_df_cells m (aggregate_and_merge_NoDup _ _ _ _ _ _ Hm) Hts)
    as (p' & Hp' & _ & Hcells).
  rewrite Hp in Hp'. by injection Hp' as <-.
Qed.

(** The script on the tables of one county: SOC rises by 0.2 Mg/ha a year
    under G and by 0.1 under G25S, which harvests 2 Mg/ha of stover. *)
Example postprocess_one_county :
  (o ← postprocess one_county;
   a ← pcell (pivoted o) 19001 "dSOC_G25S_relative" "";
   b ← pcell (pivoted o) 19001 "dN2O_G75S_relative" "";
   c ← pcell (pivoted o) 19001 "dSOC_MgStover" "";
   Some (a, b, c))
  = Some (Fin (lit (-0.1)), Fin (lit 0.03), Fin (lit (-0.05))).
Proof. compute_done. Qed.

(** * Further properties *)

(** ** [sort_values] *)

Lemma sort_values_same_key k (l : DataFrame ykey) :
  Forall (λ r, key r = k) l → sort_values l = l.
Proof.
  induction 1 as [|r l Hr Hl IH]; [done|].
  change (sort_values (r :: l)) with (insert_row r (sort_values l)).
  rewrite IH. apply insert_row_head.
  eapply Forall_impl; [exact Hl|]. intros y Hy.
  unfold row_le, ykey_leb. by rewrite Hr, Hy, (cmp_refl ykey_compare).
Qed.

Lemma sort_values_sorted_id (l : DataFrame ykey) :
  StronglySorted row_le l → sort_values l = l.
Proof.
  induction 1 as [|r l Hl IH Hr]; [done|].
  change (sort_values (r :: l)) with (insert_row r (sort_values l)).
  rewrite IH. by apply insert_row_head.
Qed.

(** X1. [sort_values] on the three key columns returns the same rows, in
    ascending order of (fips, stover_removal, simyear); rows with the same
    key keep the order they had; sorting a second time changes nothing. *)
Theorem sort_values_stable (df : DataFrame ykey) :
  sort_values df ≡ₚ df ∧
  StronglySorted row_le (sort_values df) ∧
  (∀ k, filter (λ r, key r = k) (sort_values df)
        = filter (λ r, key r = k) df) ∧
  sort_values (sort_values df) = sort_values df.
Proof.
  split; [apply sort_values_perm|]. split; [apply sort_values_sorted|].
  split.
  - intros k. rewrite (filter_sort_values (λ r, key r = k)).
    apply (sort_values_same_key k), Forall_forall.
    by intros r [Hr _]%list_elem_of_filter.
  - apply sort_values_sorted_id, sort_values_sorted.
Qed.

(** ** Annual SOC differences *)

Lemma filter_annotate_differenced prev (l : DataFrame ykey) :
  Forall2 differenced (filter not_first_year l)
    (filter not_first_year (annotate prev l)).
Proof.
  revert prev. induction l as [|r l IH]; intros prev; [constructor|].
  cbn [annotate].
  destruct (decide (not_first_year r)) as [Hr|Hr].
  - rewrite !filter_cons_True by done. constructor; [|apply IH].
    split; [done|]. split; cbn.
    + rewrite lookup_insert_eq. by eexists.
    + intros c Hc. by rewrite lookup_insert_ne.
  - rewrite !filter_cons_False by done. apply IH.
Qed.

(** X2. On a table that has the SOC column, lines 105-107 keep exactly the
    rows whose year is not 2011, in sorted order; each kept row has its key
    columns and every column it had, and a difference cell. *)
Theorem soc_annual_diff_rows (df : DataFrame ykey) :
  Forall (λ r, is_Some (cols r !! "SOC_MgC_ha-1")) df →
  ∃ out, soc_annual_diff df = Some out ∧
         Forall2 differenced (filter not_first_year (sort_values df)) out.
Proof.
  intros Hsoc. rewrite soc_annual_diff_annotate by done.
  eexists. split; [done|]. apply filter_annotate_differenced.
Qed.

Lemma soc_two_counties_has_soc :
  Forall (λ r, is_Some (cols r !! "SOC_MgC_ha-1")) soc_two_counties.
Proof. repeat constructor; by eexists. Defined.

(** The table of two counties. *)
Lemma soc_annual_diff_rows_witness :
  ∃ out, soc_annual_diff soc_two_counties = Some out ∧
         Forall2 differenced
           (filter not_first_year (sort_values soc_two_counties)) out.
Proof. apply soc_annual_diff_rows. exact soc_two_counties_has_soc. Defined.



(** X4. When the years of every group start with 2011 and 2011 occurs once
    in the group, lines 105-107 difference every group within itself: the
    rows of a group in the output are its rows in ascending year, each with
    the difference to the row before it in the group, less the first. *)
Theorem soc_diff_within_groups (df : DataFrame ykey) :
  Forall (λ r, is_Some (cols r !! "SOC_MgC_ha-1")) df →
  (∀ g, starts_in_first_year (sort_values (filter (in_group g) df))) →
  ∃ out,
    soc_annual_diff df = Some out ∧
    ∀ g, filter (in_group g) out
         = differenced_group (sort_values (filter (in_group g) df)).
Proof.
  intros Hsoc Hstart. rewrite soc_annual_diff_annotate by done.
  eexists. split; [done|]. intros g.
  destruct (soc_annual_diff_group df g Hsoc) as (out & prev & Hout & Hg).
  rewrite soc_annual_diff_annotate in Hout by done. injection Hout as <-.
  rewrite Hg. specialize (Hstart g).
  destruct (sort_values (filter (in_group g) df)) as [|r0 rest]; [done|].
  destruct Hstart as [H0 Hrest].
  unfold differenced_group. cbn [annotate tail].
  rewrite filter_cons_False.
  2:{ unfold not_first_year. cbn. by intros []. }
  apply (filter_annotate_all not_first_year not_first_year_key).
  by apply Forall_forall.
Qed.

Lemma soc_two_counties_start g :
  starts_in_first_year (sort_values (filter (in_group g) soc_two_counties)).
Proof.
  destruct (decide (g = (19001, "G"))) as [->|H1].
  { vm_compute. split; [done|]. repeat constructor; by intros [=]. }
  destruct (decide (g = (19003, "G"))) as [->|H3].
  { vm_compute. split; [done|]. repeat constructor; by intros [=]. }
  rewrite filter_none; [done|].
  intros r Hr Hg. unfold soc_two_counties in Hr.
  rewrite !elem_of_cons, elem_of_nil in Hr. unfold in_group in Hg.
  destruct Hr as [->|[->|[->|[->|[->|[->|[]]]]]]];
    unfold soc_row, value_row, group_of in Hg; cbn in Hg; congruence.
Qed.

(** The table of two counties: both start in 2011. *)
Lemma soc_diff_within_groups_witness :
  ∃ out,
    soc_annual_diff soc_two_counties = Some out ∧
    ∀ g, filter (in_group g) out
         = differenced_group
             (sort_values (filter (in_group g) soc_two_counties)).
Proof.
  apply soc_diff_within_groups.
  - exact soc_two_counties_has_soc.
  - exact soc_two_counties_start.
Defined.

(** ** The mean annual SOC change *)

Lemma annotate_has_dSOC prev (l : DataFrame ykey) y :
  y ∈ annotate prev l → is_Some (cols y !! "dSOC_MgC_ha-1").
Proof.
  revert prev. induction l as [|r l IH]; intros prev; cbn [annotate].
  - by intros ?%elem_of_nil.
  - intros [->|Hy]%elem_of_cons; [|by eapply IH].
    cbn. rewrite lookup_insert_eq. by eexists.
Qed.

Lemma column_cells_annotate prev (l : DataFrame ykey) :
  column_cells "dSOC_MgC_ha-1" (annotate prev l)
  = diff_from prev (soc_value <$> l).
Proof.
  revert prev. induction l as [|r l IH]; intros prev; [done|].
  cbn [annotate]. unfold column_cells in *. rewrite !fmap_cons.
  cbn [diff_from]. rewrite IH. f_equal. cbn. by rewrite lookup_insert_eq.
Qed.

Lemma diff_from_fin (q0 : Qc) (qs : list Qc) :
  diff_from (Fin q0) (Fin <$> qs) = Fin <$> qdiffs q0 qs.
Proof.
  revert q0. induction qs as [|q qs IH]; intros q0; [done|].
  cbn. by rewrite IH.
Qed.

Lemma qdiffs_length q0 qs : length (qdiffs q0 qs) = length qs.
Proof. revert q0. induction qs as [|q qs IH]; intros q0; cbn; auto. Qed.

(** The differences telescope. *)
Lemma qdiffs_sum (q0 : Qc) (qs : list Qc) :
  foldr Qcplus 0%Qc (qdiffs q0 qs) = (default q0 (last qs) - q0)%Qc.
Proof.
  revert q0. induction qs as [|q qs IH]; intros q0.
  - cbn. ring.
  - cbn [qdiffs foldr]. rewrite IH.
    destruct qs as [|q' qs]; [cbn; ring|].
    rewrite last_cons_cons.
    destruct (last (q' :: qs)) as [x|] eqn:Hlast; [cbn; ring|].
    by apply last_None in Hlast.
Qed.

(** X5. For a group whose years start with 2011, 2011 once, and whose SOC
    cells are finite, the mean of the annual differences that the script
    aggregates is the SOC of the last year minus the SOC of 2011, divided by
    the number of later years. *)
Theorem mean_annual_change (df : DataFrame ykey) (g : gkey)
    (r0 : row ykey) (rest : DataFrame ykey) (q0 : Qc) (qs : list Qc) :
  Forall (λ r, is_Some (cols r !! "SOC_MgC_ha-1")) df →
  sort_values (filter (in_group g) df) = r0 :: rest →
  simyear (key r0) = first_year →
  Forall not_first_year rest →
  soc_value r0 = Fin q0 →
  soc_value <$> rest = Fin <$> qs →
  qs ≠ [] →
  ∃ out agg,
    soc_annual_diff df = Some out ∧
    groupby_mean "dSOC_MgC_ha-1" out = Some agg ∧
    Row g {[ "dSOC_MgC_ha-1" :=
               Fin ((default q0 (last qs) - q0)
                    / Qc_of_Z (Z.of_nat (length qs)))%Qc ]} ∈ agg.
Proof.
  intros Hsoc Hsort H0 Hrest Hq0 Hqs Hne.
  destruct (soc_annual_diff_first_year df g r0 rest Hsoc Hsort H0 Hrest)
    as (out & Hout & Hg).
  exists out. eexists. split; [exact Hout|].
  assert (Forall (λ r, is_Some (cols r !! "dSOC_MgC_ha-1")) out) as Hd.
  { rewrite soc_annual_diff_annotate in Hout by done. injection Hout as <-.
    apply Forall_forall. intros y [_ Hy]%list_elem_of_filter.
    by eapply annotate_has_dSOC. }
  rewrite groupby_mean_eq by done. split; [done|].
  unfold differenced_group in Hg. cbn [annotate tail] in Hg.
  apply list_elem_of_fmap. exists g. split.
  - do 3 f_equal. rewrite Hg, column_cells_annotate, Hq0, Hqs, diff_from_fin.
    rewrite mean_fin.
    2:{ destruct qs; [done|]. done. }
    f_equal. unfold arith_mean. by rewrite qdiffs_sum, qdiffs_length.
  - apply (sort_uniq_elem gkey_compare), list_elem_of_fmap.
    destruct rest as [|r1 rest]; [by destruct qs|].
    cbn [annotate] in Hg.
    assert (with_dSOC (nsub (soc_value r1) (soc_value r0)) r1
            ∈ filter (in_group g) out) as Hin by (rewrite Hg; left).
    apply list_elem_of_filter in Hin as [Hin1 Hin2].
    eexists. split; [|exact Hin2]. done.
Qed.

(** County 19001 of the table of two counties: from 10 to 15 in two
    years. *)
Lemma mean_annual_change_witness :
  ∃ out agg,
    soc_annual_diff soc_two_counties = Some out ∧
    groupby_mean "dSOC_MgC_ha-1" out = Some agg ∧
    Row (19001, "G")
      {[ "dSOC_MgC_ha-1" :=
           Fin ((default (lit 10) (last [lit 12; lit 15]) - lit 10)
                / Qc_of_Z (Z.of_nat (length [lit 12; lit 15])))%Qc ]} ∈ agg.
Proof.
  apply (mean_annual_change soc_two_counties (19001, "G")
           (soc_row 19001 "G" 2011 10)
           [soc_row 19001 "G" 2012 12; soc_row 19001 "G" 2013 15]).
  - exact soc_two_counties_has_soc.
  - reflexivity.
  - reflexivity.
  - repeat constructor; by intros [=].
  - reflexivity.
  - reflexivity.
  - done.
Defined.

(** ** Missing columns *)

Lemma get_column_None {K} c (df : DataFrame K) r :
  r ∈ df → cols r !! c = None → get_column c df = None.
Proof.
  intros Hr Hc. apply mapM_None_2, Exists_exists. by exists r.
Qed.

(** X6. A statement that reads a column raises a [KeyError] when the table
    lacks it: each unit conversion, the differencing, each aggregation, and
    with one aggregation the whole block of lines 114-124. *)
Theorem missing_column_KeyError :
  (∀ K src tgt factor (df : DataFrame K) r,
     r ∈ df → cols r !! src = None → unit_convert src tgt factor df = None) ∧
  (∀ df r, r ∈ df → cols r !! "SOC_MgC_ha-1" = None →
           soc_annual_diff df = None) ∧
  (∀ c df r, r ∈ df → cols r !! c = None → groupby_mean c df = None) ∧
  (∀ corn_df soy_df stover_df soc_df n2o_df r,
     r ∈ soc_df → cols r !! "dSOC_MgC_ha-1" = None →
     aggregate_and_merge corn_df soy_df stover_df soc_df n2o_df = None).
Proof.
  split; [|split; [|split]].
  - intros K src tgt factor df r Hr Hc. unfold unit_convert.
    by rewrite (get_column_None src df r).
  - intros df r Hr Hc. unfold soc_annual_diff.
    rewrite (get_column_None _ (sort_values df) r); [done| |done].
    by rewrite sort_values_perm.
  - intros c df r Hr Hc. unfold groupby_mean.
    by rewrite (get_column_None c df r).
  - intros corn_df soy_df stover_df soc_df n2o_df r Hr Hc.
    unfold aggregate_and_merge.
    assert (groupby_mean "dSOC_MgC_ha-1" soc_df = None) as ->.
    { unfold groupby_mean. by rewrite (get_column_None _ soc_df r). }
    by destruct (groupby_mean _ corn_df), (groupby_mean _ soy_df),
      (groupby_mean _ stover_df).
Qed.

(** The SOC table before line 106 has no difference column: aggregating it
    as line 117 does raises. *)
Lemma missing_column_KeyError_witness :
  groupby_mean "dSOC_MgC_ha-1" soc_two_counties = None.
Proof.
  destruct missing_column_KeyError as (_ & _ & Hgroupby & _).
  apply (Hgroupby "dSOC_MgC_ha-1" soc_two_counties (soc_row 19003 "G" 2012 31)).
  - unfold soc_two_counties. apply list_elem_of_here.
  - reflexivity.
Defined.

(** X7. A unit conversion consumes its source column: run a second time on
    its own output, as when the notebook cell is run again, it raises a
    [KeyError], unless the table is empty. *)
Theorem unit_convert_twice {K} (src tgt : string) (factor : Qc)
    (df df' : DataFrame K) :
  src ≠ tgt → df ≠ [] →
  unit_convert src tgt factor df = Some df' →
  unit_convert src tgt factor df' = None.
Proof.
  intros Hne Hdf Hconv.
  assert (Forall (λ r, is_Some (cols r !! src)) df) as Hsrc.
  { unfold unit_convert in Hconv.
    destruct (get_column src df) as [vs|] eqn:Hvs; [|done].
    apply (mapM_is_Some_1 (λ r : row K, cols r !! src)). by eexists. }
  rewrite unit_convert_fmap in Hconv by done. injection Hconv as <-.
  destruct df as [|r df]; [done|].
  unfold unit_convert.
  rewrite (get_column_None src _ (convert_row src tgt factor r)); [done| |].
  - rewrite fmap_cons. apply list_elem_of_here.
  - cbn. apply lookup_delete_eq.
Qed.

(** The corn conversion, twice. *)
Lemma unit_convert_twice_witness :
  convert_corn
    [Row (YKey 19001 "G" 2012) {[ "corn_yield_Mg_ha-1" := Fin (lit 150 * corn_factor) ]}]
  = None.
Proof.
  apply (unit_convert_twice "grainyield_bu_ac" "corn_yield_Mg_ha-1" corn_factor
           [corn_row 19001 "G" 2012 150]); [done|done|].
  apply (bool_decide_unpack _). vm_compute. exact I.
Defined.

(** ** Conversion and aggregation *)

Lemma nmul_fin (a f : Qc) : nmul (Fin a) (Fin f) = Fin (a * f).
Proof. done. Qed.

Lemma scale_fin (f : Qc) (qs : list Qc) :
  scale f (Fin <$> qs) = Fin <$> ((λ q, q * f)%Qc <$> qs).
Proof. unfold scale. rewrite <-!list_fmap_compose. done. Qed.

Lemma sum_scale (f : Qc) (qs : list Qc) :
  foldr Qcplus 0%Qc ((λ q, q * f)%Qc <$> qs)
  = (foldr Qcplus 0%Qc qs * f)%Qc.
Proof. induction qs as [|q qs IH]; cbn; [ring|]. rewrite IH. ring. Qed.

(** The mean of finite cells is linear. *)
Lemma mean_scale (f : Qc) (qs : list Qc) :
  mean (scale f (Fin <$> qs)) = nmul (mean (Fin <$> qs)) (Fin f).
Proof.
  destruct qs as [|q qs]; [done|].
  rewrite scale_fin, !mean_fin by done. rewrite nmul_fin. f_equal.
  unfold arith_mean. rewrite sum_scale, length_fmap. field.
  rewrite <-Z2Qc_inj_0. intros Hz%Z2Qc_inj. cbn in Hz. lia.
Qed.

Lemma finite_cells {K} c (rows : DataFrame K) :
  finite_column c rows → ∃ qs, column_cells c rows = Fin <$> qs.
Proof.
  induction 1 as [|r rows [q Hq] _ [qs IH]]; [by exists []|].
  exists (q :: qs). unfold column_cells in *. rewrite !fmap_cons, IH, Hq. done.
Qed.

Lemma column_cells_convert {K} src tgt f (rows : DataFrame K) :
  src ≠ tgt →
  column_cells tgt (convert_row src tgt f <$> rows)
  = scale f (column_cells src rows).
Proof.
  intros Hne. unfold column_cells, scale. rewrite <-!list_fmap_compose.
  apply list_fmap_ext. intros _ r _. cbn.
  rewrite lookup_delete_ne by done. by rewrite lookup_insert_eq.
Qed.

(** X8. On a table whose source column is finite, converting the unit and
    then aggregating gives the same table as aggregating and then converting
    the unit: the mean of the converted cells is the converted mean. *)
Theorem convert_aggregate_commute (src tgt : string) (factor : Qc)
    (df : DataFrame ykey) :
  src ≠ tgt →
  finite_column src df →
  ∃ agg,
    (unit_convert src tgt factor df ≫= groupby_mean tgt) = Some agg ∧
    (groupby_mean src df ≫= unit_convert src tgt factor) = Some agg.
Proof.
  intros Hne Hfin.
  assert (Forall (λ r, is_Some (cols r !! src)) df) as Hsrc.
  { eapply Forall_impl; [exact Hfin|]. intros r [q ->]. by eexists. }
  rewrite unit_convert_fmap, groupby_mean_eq by done.
  cbn [mbind option_bind].
  rewrite groupby_mean_eq.
  2:{ apply Forall_fmap, Forall_forall. intros r _. cbn.
      rewrite lookup_delete_ne by done. rewrite lookup_insert_eq. by eexists. }
  rewrite unit_convert_fmap.
  2:{ apply Forall_fmap, Forall_forall. intros g _. cbn.
      rewrite lookup_singleton_eq. by eexists. }
  eexists. split; [done|]. f_equal.
  rewrite <-!list_fmap_compose.
  rewrite (list_fmap_ext (_ ∘ convert_row src tgt factor)
             (λ r, group_of (key r)) df) by done.
  apply list_fmap_ext. intros _ g _. cbn [compose].
  rewrite filter_convert_row, column_cells_convert by done.
  destruct (finite_cells src (filter (in_group g) df)) as [qs Hqs].
  { apply Forall_forall. intros r [_ Hr]%list_elem_of_filter.
    by eapply Forall_forall in Hfin. }
  rewrite Hqs, mean_scale. unfold convert_row. cbn [key cols]. f_equal.
  rewrite lookup_singleton_eq. cbn [default].
  by rewrite delete_insert_ne, delete_singleton_eq, insert_empty.
Qed.

(** The corn yields of two counties. *)
Lemma convert_aggregate_commute_witness :
  ∃ agg,
    (convert_corn corn_two_counties ≫= groupby_mean "corn_yield_Mg_ha-1")
    = Some agg ∧
    (groupby_mean "grainyield_bu_ac" corn_two_counties
     ≫= unit_convert "grainyield_bu_ac" "corn_yield_Mg_ha-1" corn_factor)
    = Some agg.
Proof.
  apply (convert_aggregate_commute "grainyield_bu_ac" "corn_yield_Mg_ha-1"
           corn_factor corn_two_counties); [done|].
  repeat constructor; by eexists.
Defined.

(** ** Row order and contents of the merged table *)

Lemma groupby_mean_keys c (df : DataFrame ykey) agg :
  groupby_mean c df = Some agg →
  key <$> agg = group_keys ((λ r, group_of (key r)) <$> df).
Proof.
  unfold groupby_mean. destruct (get_column c df) as [vs|] eqn:Hvs; [|done].
  cbn. intros [= <-]. rewrite <-list_fmap_compose.
  rewrite (list_fmap_ext _ id (group_keys _)) by done.
  rewrite list_fmap_id. f_equal.
  apply mapM_Some_1 in Hvs. rewrite (zip_kv_of c df vs Hvs).
  by rewrite <-list_fmap_compose.
Qed.

Lemma insert_uniq_length {A} (cmp : A → A → comparison) k l :
  (length (insert_uniq cmp k l) ≤ S (length l))%nat.
Proof.
  induction l as [|x l IH]; cbn; [lia|].
  destruct (cmp k x); cbn; lia.
Qed.

Lemma sort_uniq_length {A} (cmp : A → A → comparison) l :
  (length (sort_uniq cmp l) ≤ length l)%nat.
Proof.
  induction l as [|k l IH]; cbn; [lia|].
  pose proof (insert_uniq_length cmp k (sort_uniq cmp l)).
  unfold sort_uniq in *. lia.
Qed.

(** X9. The table of means has its rows in strictly ascending order of
    (fips, stover_removal), a row for the pair of every input row, and no
    more rows than the input. *)
Theorem groupby_mean_sorted (c : string) (df : DataFrame ykey)
    (agg : DataFrame gkey) :
  groupby_mean c df = Some agg →
  StronglySorted (cmp_lt gkey_compare) (key <$> agg) ∧
  (∀ r, r ∈ df → group_of (key r) ∈ key <$> agg) ∧
  (length agg ≤ length df)%nat.
Proof.
  intros Hagg. pose proof (groupby_mean_keys c df agg Hagg) as Hkeys.
  split; [|split].
  - rewrite Hkeys. apply (sort_uniq_sorted gkey_compare).
  - intros r Hr. rewrite Hkeys.
    apply (sort_uniq_elem gkey_compare), list_elem_of_fmap. by exists r.
  - rewrite <-(length_fmap key agg), Hkeys.
    rewrite <-(length_fmap (λ r, group_of (key r)) df).
    apply sort_uniq_length.
Qed.

(** The corn yields of two counties. *)
Lemma groupby_mean_sorted_witness :
  ∃ agg,
    groupby_mean "grainyield_bu_ac" corn_two_counties = Some agg ∧
    StronglySorted (cmp_lt gkey_compare) (key <$> agg) ∧
    (∀ r, r ∈ corn_two_counties → group_of (key r) ∈ key <$> agg) ∧
    (length agg ≤ length corn_two_counties)%nat.
Proof.
  exists [mean_row "grainyield_bu_ac" 19001 "G" 155;
          mean_row "grainyield_bu_ac" 19003 "G" 140].
  assert (groupby_mean "grainyield_bu_ac" corn_two_counties
          = Some [mean_row "grainyield_bu_ac" 19001 "G" 155;
                  mean_row "grainyield_bu_ac" 19003 "G" 140]) as Hagg.
  { apply (bool_decide_unpack _). vm_compute. exact I. }
  split; [exact Hagg|].
  exact (groupby_mean_sorted _ _ _ Hagg).
Defined.

(** With distinct keys on the right, a merge keeps the rows of the left
    table whose key the right table has, in the order of the left table. *)
Lemma merge_keys_filter (left right : DataFrame gkey) :
  NoDup (key <$> right) →
  key <$> merge left right
  = filter (λ k, k ∈ key <$> right) (key <$> left).
Proof.
  intros Hnd. induction left as [|l left IH]; [done|].
  unfold merge in *. rewrite bind_cons, fmap_app, IH, fmap_cons, filter_cons.
  f_equal. clear IH.
  pose proof (filter_key_NoDup right (key l) Hnd) as Hlen.
  destruct (decide (key l ∈ key <$> right)) as [Hin|Hin].
  - apply list_elem_of_fmap in Hin as (r & Hk & Hr).
    assert (r ∈ filter (λ r, key r = key l) right) as Hf
      by by apply list_elem_of_filter.
    destruct (filter _ right) as [|r1 [|r2 rs]]; cbn in *;
      [by apply elem_of_nil in Hf|done|lia].
  - rewrite filter_none; [done|]. intros r Hr Hk. apply Hin.
    apply list_elem_of_fmap. by exists r.
Qed.

Lemma StronglySorted_filter {A} (R : relation A) (P : A → Prop)
    `{!∀ x, Decision (P x)} (l : list A) :
  StronglySorted R l → StronglySorted R (filter P l).
Proof.
  induction 1 as [|x l Hl IH Hx]; [constructor|].
  rewrite filter_cons. destruct (decide (P x)); [|done].
  constructor; [done|]. apply Forall_forall.
  intros y [_ Hy]%list_elem_of_filter. by eapply Forall_forall in Hx.
Qed.

Lemma aggregate_and_merge_Some
    (corn_df soy_df stover_df soc_df n2o_df : DataFrame ykey) df :
  aggregate_and_merge corn_df soy_df stover_df soc_df n2o_df = Some df →
  ∃ corn soy stover soc n2o,
    groupby_mean "corn_yield_Mg_ha-1" corn_df = Some corn ∧
    groupby_mean "soy_yield_Mg_ha-1" soy_df = Some soy ∧
    groupby_mean "stover_yield_Mg_ha-1" stover_df = Some stover ∧
    groupby_mean "dSOC_MgC_ha-1" soc_df = Some soc ∧
    groupby_mean "N2O_MgN_ha-1" n2o_df = Some n2o ∧
    df = merge_all corn soy stover soc n2o.
Proof.
  unfold aggregate_and_merge.
  destruct (groupby_mean _ corn_df) as [corn|]; [|done].
  destruct (groupby_mean _ soy_df) as [soy|]; [|done].
  destruct (groupby_mean _ stover_df) as [stover|]; [|done].
  destruct (groupby_mean _ soc_df) as [soc|]; [|done].
  destruct (groupby_mean _ n2o_df) as [n2o|]; [|done].
  cbn. intros [= <-]. by exists corn, soy, stover, soc, n2o.
Qed.

(** X10. The merged table has its rows in strictly ascending order of
    (fips, stover_removal), so each pair once, and no more rows than the
    smallest of the yearly tables. *)
Theorem merged_rows_ascending
    (corn_df soy_df stover_df soc_df n2o_df : DataFrame ykey)
    (df : DataFrame gkey) :
  aggregate_and_merge corn_df soy_df stover_df soc_df n2o_df = Some df →
  StronglySorted (cmp_lt gkey_compare) (key <$> df) ∧
  (length df ≤ length corn_df)%nat ∧ (length df ≤ length soy_df)%nat ∧
  (length df ≤ length stover_df)%nat ∧ (length df ≤ length soc_df)%nat ∧
  (length df ≤ length n2o_df)%nat.
Proof.
  intros (corn & soy & stover & soc & n2o & H1 & H2 & H3 & H4 & H5 & ->)
    %aggregate_and_merge_Some.
  pose proof (groupby_mean_shape _ _ _ H1) as [N1 _].
  pose proof (groupby_mean_shape _ _ _ H2) as [N2 _].
  pose proof (groupby_mean_shape _ _ _ H3) as [N3 _].
  pose proof (groupby_mean_shape _ _ _ H4) as [N4 _].
  pose proof (groupby_mean_shape _ _ _ H5) as [N5 _].
  assert (Hk : key <$> merge_all corn soy stover soc n2o
             = filter (λ k, k ∈ key <$> n2o)
                 (filter (λ k, k ∈ key <$> soc)
                    (filter (λ k, k ∈ key <$> stover)
                       (filter (λ k, k ∈ key <$> soy) (key <$> corn))))).
  { unfold merge_all. by rewrite !merge_keys_filter. }
  assert (Hsub : ∀ (a : DataFrame gkey) (d : DataFrame ykey) c,
            groupby_mean c d = Some a →
            NoDup (key <$> merge_all corn soy stover soc n2o) →
            (∀ k, k ∈ key <$> merge_all corn soy stover soc n2o →
                  k ∈ key <$> a) →
            (length (merge_all corn soy stover soc n2o) ≤ length d)%nat).
  { intros a d c Ha Hnd Hin.
    pose proof (groupby_mean_keys c d a Ha) as Hka.
    rewrite <-(length_fmap key (merge_all _ _ _ _ _)).
    etrans; [apply (submseteq_length _ (key <$> a))|].
    - by apply NoDup_submseteq.
    - rewrite Hka, <-(length_fmap (λ r, group_of (key r)) d).
      apply sort_uniq_length. }
  assert (Hnd : NoDup (key <$> merge_all corn soy stover soc n2o)).
  { unfold merge_all. by repeat apply merge_NoDup. }
  assert (Hin : ∀ k, k ∈ key <$> merge_all corn soy stover soc n2o →
            k ∈ key <$> corn ∧ k ∈ key <$> soy ∧ k ∈ key <$> stover ∧
            k ∈ key <$> soc ∧ k ∈ key <$> n2o).
  { intros k. unfold merge_all. rewrite !merge_keys. tauto. }
  split.
  - rewrite Hk. do 4 apply StronglySorted_filter.
    rewrite (groupby_mean_keys _ _ _ H1).
    apply (sort_uniq_sorted gkey_compare).
  - repeat split.
    + apply (Hsub corn corn_df _ H1 Hnd). intros k Hkk. by apply Hin.
    + apply (Hsub soy soy_df _ H2 Hnd). intros k Hkk. by apply Hin.
    + apply (Hsub stover stover_df _ H3 Hnd). intros k Hkk. by apply Hin.
    + apply (Hsub soc soc_df _ H4 Hnd). intros k Hkk. by apply Hin.
    + apply (Hsub n2o n2o_df _ H5 Hnd). intros k Hkk. by apply Hin.
Qed.

Lemma yearly_merged :
  aggregate_and_merge yearly_corn yearly_soy yearly_stover yearly_dsoc
    yearly_n2o
  = Some [Row (19001, "G")
            {[ "corn_yield_Mg_ha-1" := Fin (lit 9);
               "soy_yield_Mg_ha-1" := Fin (lit 3);
               "stover_yield_Mg_ha-1" := Fin (lit 0);
               "dSOC_MgC_ha-1" := Fin (lit 0.2);
               "N2O_MgN_ha-1" := Fin (lit 0.002) ]}].
Proof. apply (bool_decide_unpack _). vm_compute. exact I. Defined.

(** The yearly tables of two counties. *)
Lemma merged_rows_ascending_witness :
  ∃ df,
    aggregate_and_merge yearly_corn yearly_soy yearly_stover yearly_dsoc
      yearly_n2o = Some df ∧
    StronglySorted (cmp_lt gkey_compare) (key <$> df) ∧
    (length df ≤ length yearly_corn)%nat ∧
    (length df ≤ length yearly_soy)%nat ∧
    (length df ≤ length yearly_stover)%nat ∧
    (length df ≤ length yearly_dsoc)%nat ∧
    (length df ≤ length yearly_n2o)%nat.
Proof.
  eexists. split; [exact yearly_merged|].
  exact (merged_rows_ascending _ _ _ _ _ _ yearly_merged).
Defined.

Lemma groupby_mean_has c (df : DataFrame ykey) agg :
  groupby_mean c df = Some agg → Forall (λ r, is_Some (cols r !! c)) df.
Proof.
  unfold groupby_mean. destruct (get_column c df) as [vs|] eqn:Hvs; [|done].
  intros _. apply (mapM_is_Some_1 (λ r : row ykey, cols r !! c)).
  by eexists.
Qed.

Lemma groupby_mean_row c (df : DataFrame ykey) agg a :
  groupby_mean c df = Some agg → a ∈ agg →
  cols a = {[ c := group_mean c df a ]}.
Proof.
  intros Hagg Ha. pose proof (groupby_mean_has c df agg Hagg) as Hc.
  rewrite groupby_mean_eq in Hagg by done. injection Hagg as <-.
  by apply list_elem_of_fmap in Ha as (g & -> & _).
Qed.

(** X11. Each cell of the merged table is the mean of its column over all
    the rows of the yearly table with that (fips, stover_removal) pair,
    whatever their years: a yield of 2011 counts in the mean as any
    other. *)
Theorem merged_cells_are_means
    (corn_df soy_df stover_df soc_df n2o_df : DataFrame ykey)
    (df : DataFrame gkey) (r : row gkey) :
  aggregate_and_merge corn_df soy_df stover_df soc_df n2o_df = Some df →
  r ∈ df →
  cols r !! "corn_yield_Mg_ha-1"
    = Some (group_mean "corn_yield_Mg_ha-1" corn_df r) ∧
  cols r !! "soy_yield_Mg_ha-1"
    = Some (group_mean "soy_yield_Mg_ha-1" soy_df r) ∧
  cols r !! "stover_yield_Mg_ha-1"
    = Some (group_mean "stover_yield_Mg_ha-1" stover_df r) ∧
  cols r !! "dSOC_MgC_ha-1" = Some (group_mean "dSOC_MgC_ha-1" soc_df r) ∧
  cols r !! "N2O_MgN_ha-1" = Some (group_mean "N2O_MgN_ha-1" n2o_df r).
Proof.
  intros (corn & soy & stover & soc & n2o & H1 & H2 & H3 & H4 & H5 & ->)
    %aggregate_and_merge_Some.
  unfold merge_all.
  intros (x4 & r5 & Hx4 & Hr5 & K5 & ->)%elem_of_merge.
  apply elem_of_merge in Hx4 as (x3 & r4 & Hx3 & Hr4 & K4 & ->).
  apply elem_of_merge in Hx3 as (x2 & r3 & Hx2 & Hr3 & K3 & ->).
  apply elem_of_merge in Hx2 as (r1 & r2 & Hr1 & Hr2 & K2 & ->).
  cbn in *.
  rewrite (groupby_mean_row _ _ _ r1 H1 Hr1), (groupby_mean_row _ _ _ r2 H2 Hr2),
    (groupby_mean_row _ _ _ r3 H3 Hr3), (groupby_mean_row _ _ _ r4 H4 Hr4),
    (groupby_mean_row _ _ _ r5 H5 Hr5).
  unfold group_mean. cbn [key]. rewrite K2, K3, K4, K5.
  repeat split;
    repeat first [ rewrite lookup_union_l' by (rewrite lookup_singleton_eq; by eexists)
                 | rewrite lookup_union_r by (repeat first [apply lookup_singleton_ne; done | rewrite lookup_union_None; split]) ];
    by rewrite lookup_singleton_eq.
Qed.

(** County 19001 of the yearly tables: its corn mean counts the yield of
    2011. *)
Lemma merged_cells_are_means_witness :
  let r := Row (19001, "G")
             {[ "corn_yield_Mg_ha-1" := Fin (lit 9);
                "soy_yield_Mg_ha-1" := Fin (lit 3);
                "stover_yield_Mg_ha-1" := Fin (lit 0);
                "dSOC_MgC_ha-1" := Fin (lit 0.2);
                "N2O_MgN_ha-1" := Fin (lit 0.002) ]} in
  cols r !! "corn_yield_Mg_ha-1"
    = Some (group_mean "corn_yield_Mg_ha-1" yearly_corn r) ∧
  cols r !! "soy_yield_Mg_ha-1"
    = Some (group_mean "soy_yield_Mg_ha-1" yearly_soy r) ∧
  cols r !! "stover_yield_Mg_ha-1"
    = Some (group_mean "stover_yield_Mg_ha-1" yearly_stover r) ∧
  cols r !! "dSOC_MgC_ha-1" = Some (group_mean "dSOC_MgC_ha-1" yearly_dsoc r) ∧
  cols r !! "N2O_MgN_ha-1" = Some (group_mean "N2O_MgN_ha-1" yearly_n2o r).
Proof.
  intros r.
  apply (merged_cells_are_means _ _ _ _ _ _ r yearly_merged).
  apply list_elem_of_here.
Defined.

(** ** Pivot *)

Lemma cell_lookup (df : DataFrame gkey) (r : row gkey) v :
  NoDup (key <$> df) → r ∈ df →
  cell df (key r).1 (key r).2 v = default NaN (cols r !! v).
Proof.
  intros Hnd Hr. unfold cell.
  replace ((key r).1, (key r).2) with (key r) by by destruct (key r).
  pose proof (filter_key_NoDup df (key r) Hnd) as Hlen.
  assert (r ∈ filter (λ x, key x = key r) df) as Hin
    by by apply list_elem_of_filter.
  destruct (filter _ df) as [|x [|y l]]; cbn in Hlen.
  - by apply elem_of_nil in Hin.
  - by apply list_elem_of_singleton in Hin as ->.
  - lia.
Qed.

Lemma pivot_Some (df : DataFrame gkey) :
  NoDup (key <$> df) →
  pivot value_columns df
  = Some {| pcolumns :=
              v ← value_columns;
              t ← sort_uniq String.compare ((λ r, (key r).2) <$> df);
              [(v, t)];
            prows :=
              pivot_row df
                (v ← value_columns;
                 t ← sort_uniq String.compare ((λ r, (key r).2) <$> df);
                 [(v, t)])
              <$> sort_uniq Z.compare ((λ r, (key r).1) <$> df) |}.
Proof. intros Hnd. unfold pivot. by rewrite decide_True. Qed.

Lemma pivot_columns (df : DataFrame gkey) p v t :
  pivot value_columns df = Some p →
  (v, t) ∈ pcolumns p ↔ v ∈ value_columns ∧ treatment_occurs df t.
Proof.
  intros Hp.
  assert (NoDup (key <$> df)) as Hnd.
  { unfold pivot in Hp. by destruct (decide (NoDup (key <$> df))). }
  rewrite pivot_Some in Hp by done. injection Hp as <-.
  change ((v, t) ∈ (v ← value_columns;
                    t ← sort_uniq String.compare ((λ r, (key r).2) <$> df);
                    [(v, t)])
          ↔ v ∈ value_columns ∧ treatment_occurs df t).
  rewrite elem_of_columns, (sort_uniq_elem String.compare), list_elem_of_fmap.
  unfold treatment_occurs. split.
  - intros [Hv (r & -> & Hr)]. split; [done|]. by exists r.
  - intros [Hv (r & Hr & <-)]. split; [done|]. by exists r.
Qed.

Lemma pivot_pcell (df : DataFrame gkey) p f v t :
  pivot value_columns df = Some p →
  county_occurs df f → (v, t) ∈ pcolumns p →
  pcell p f v t = Some (cell df f t v).
Proof.
  intros Hp (r & Hr & Hf) Hc.
  assert (NoDup (key <$> df)) as Hnd.
  { unfold pivot in Hp. by destruct (decide (NoDup (key <$> df))). }
  rewrite pivot_Some in Hp by done. injection Hp as <-.
  unfold pcell. unfold prows at 1. unfold pcolumns in Hc.
  rewrite (head_filter_index (pivot_row df _)); [|done|].
  - cbn [mbind option_bind]. by rewrite pivot_row_cell.
  - apply (sort_uniq_elem Z.compare), list_elem_of_fmap. by exists r.
Qed.

(** X12. Pivoting loses nothing and invents nothing: on a merged table in
    which each pair occurs once, the cell of the pivoted table at row fips,
    column (value column, treatment) is the cell of the merged row with
    that pair, and a missing value when a county and a treatment both occur
    but not together; with a pair twice, [pivot] raises. *)
Theorem pivot_roundtrip (df : DataFrame gkey) :
  (NoDup (key <$> df) ↔ is_Some (pivot value_columns df)) ∧
  ∀ p, pivot value_columns df = Some p →
    (∀ r v, r ∈ df → v ∈ value_columns →
       pcell p (key r).1 v (key r).2 = Some (default NaN (cols r !! v))) ∧
    (∀ f t v, county_occurs df f → treatment_occurs df t →
       v ∈ value_columns → (f, t) ∉ (key <$> df) →
       pcell p f v t = Some NaN).
Proof.
  split.
  - unfold pivot. destruct (decide (NoDup (key <$> df))) as [Hnd|Hnd].
    + split; [by eexists|done].
    + split; [done|]. by intros [? ?].
  - intros p Hp.
    assert (NoDup (key <$> df)) as Hnd.
    { unfold pivot in Hp. by destruct (decide (NoDup (key <$> df))). }
    split.
    + intros r v Hr Hv.
      rewrite (pivot_pcell df p _ _ _ Hp).
      * by rewrite cell_lookup.
      * by exists r.
      * apply (pivot_columns df p _ _ Hp). split; [done|]. by exists r.
    + intros f t v Hf Ht Hv Hk.
      rewrite (pivot_pcell df p _ _ _ Hp Hf).
      * by rewrite cell_missing.
      * by apply (pivot_columns df p _ _ Hp).
Qed.

Lemma two_counties_pivot :
  is_Some (pivot value_columns two_counties).
Proof. apply (bool_decide_unpack _). vm_compute. exact I. Defined.

(** The table of two counties: county 19003 has no row for G. *)
Lemma pivot_roundtrip_witness :
  ∃ p, pivot value_columns two_counties = Some p ∧
       pcell p 19001 "dSOC_MgC_ha-1" "G75S" = Some (Fin (lit (-0.1))) ∧
       pcell p 19003 "dSOC_MgC_ha-1" "G" = Some NaN.
Proof.
  destruct two_counties_pivot as [p Hp]. exists p. split; [exact Hp|].
  destruct (pivot_roundtrip two_counties) as [_ Hcells].
  destruct (Hcells p Hp) as [Hrow Hmiss]. split.
  - apply (Hrow (merged_row 19001 "G75S" 10 3 6 (-0.1) 0.005)
             "dSOC_MgC_ha-1").
    + unfold two_counties. in_list.
    + unfold value_columns. in_list.
  - apply (Hmiss 19003 "G" "dSOC_MgC_ha-1").
    + exists (merged_row 19003 "G25S" 9 3 2 0.1 0.003).
      split; [unfold two_counties; in_list|done].
    + apply two_counties_treatments. unfold treatments. in_list.
    + unfold value_columns. in_list.
    + apply (bool_decide_unpack _). vm_compute. exact I.
Defined.

(** ** When lines 131-141 raise *)

Lemma pget_Some v t p vs :
  pget v t p = Some vs → (v, t) ∈ pcolumns p.
Proof. unfold pget. by destruct (decide ((v, t) ∈ pcolumns p)). Qed.

Lemma passign_columns name vs p c :
  c ∈ pcolumns (passign name vs p) → c ∈ pcolumns p ∨ c = (name, "").
Proof.
  unfold passign. cbn. destruct (decide ((name, "") ∈ pcolumns p)).
  - by left.
  - rewrite elem_of_app, list_elem_of_singleton. done.
Qed.

(** An assignment that returns has read two columns, and has added at most
    the column it writes. *)
Lemma relative_Some name v t p q :
  relative name v t p = Some q →
  (v, t) ∈ pcolumns p ∧ (v, "G") ∈ pcolumns p ∧
  ∀ c, c ∈ pcolumns q → c ∈ pcolumns p ∨ c = (name, "").
Proof.
  unfold relative.
  destruct (pget v t p) as [a|] eqn:Ha; [|done].
  destruct (pget v "G" p) as [b|] eqn:Hb; [|done].
  cbn. intros [= <-]. split; [by eapply pget_Some|].
  split; [by eapply pget_Some|]. apply passign_columns.
Qed.

(** Lines 135-141 return only on a table that has the soil-carbon column of
    each of the four treatments. *)
Lemma relative_columns_Some p q t :
  relative_columns p = Some q → t ∈ treatments →
  ("dSOC_MgC_ha-1", t) ∈ pcolumns p.
Proof.
  unfold relative_columns. intros Hq Ht.
  destruct (relative "dSOC_G25S_relative" _ _ p) as [p1|] eqn:E1; [|done].
  cbn in Hq.
  destruct (relative "dSOC_G50S_relative" _ _ p1) as [p2|] eqn:E2; [|done].
  cbn in Hq.
  destruct (relative "dSOC_G75S_relative" _ _ p2) as [p3|] eqn:E3; [|done].
  clear Hq.
  apply relative_Some in E1 as (H25 & HG & C1).
  apply relative_Some in E2 as (H50 & _ & C2).
  apply relative_Some in E3 as (H75 & _ & C3).
  unfold treatments in Ht. rewrite !elem_of_cons, elem_of_nil in Ht.
  destruct Ht as [->|[->|[->|[->|[]]]]]; [done|done| |].
  - by destruct (C1 _ H50) as [?|[=]].
  - destruct (C2 _ H75) as [H|[=]]. by destruct (C1 _ H) as [?|[=]].
Qed.

Lemma pivoted_df_is_Some (df : DataFrame gkey) :
  is_Some (pivoted_df df) ↔
  NoDup (key <$> df) ∧ ∀ t, t ∈ treatments → treatment_occurs df t.
Proof.
  split.
  - intros [q Hq]. unfold pivoted_df in Hq.
    destruct (pivot value_columns df) as [p|] eqn:Hp; [|done].
    cbn in Hq. split.
    + unfold pivot in Hp. by destruct (decide (NoDup (key <$> df))).
    + intros t Ht.
      pose proof (relative_columns_Some p q t Hq Ht) as Hc.
      by apply (pivot_columns df p _ _ Hp) in Hc as [_ ?].
  - intros [Hnd Hts].
    destruct (pivoted_df_cells df Hnd Hts) as (p & Hp & _). by exists p.
Qed.

(** X13. Lines 131-141 return a table exactly when each (fips,
    stover_removal) pair of the merged table occurs once and each of the
    treatments G, G25S, G50S, G75S occurs in it for some county; otherwise
    [pivot] or a column lookup raises. *)
Theorem pivoted_df_returns_iff (df : DataFrame gkey) :
  is_Some (pivoted_df df) ↔
  NoDup (key <$> df) ∧ ∀ t, t ∈ treatments → treatment_occurs df t.
Proof. apply pivoted_df_is_Some. Qed.

(** The table of two counties has the four treatments. *)
Lemma pivoted_df_returns_iff_witness : is_Some (pivoted_df two_counties).
Proof.
  apply pivoted_df_returns_iff. split.
  - apply (bool_decide_unpack _). vm_compute. exact I.
  - exact two_counties_treatments.
Defined.

(** ** What lines 135-141 leave alone *)

Lemma derive_row_other r c :
  c ∉ derived_labels → pcells (derive_row r) !! c = pcells r !! c.
Proof.
  intros Hc. unfold derive_row, ratio_row, relative_row. cbn [pcells].
  unfold derived_labels, derived_names in Hc.
  rewrite !fmap_cons, fmap_nil in Hc.
  rewrite !not_elem_of_cons in Hc.
  destruct Hc as (H1 & H2 & H3 & H4 & H5 & H6 & H7 & _).
  by rewrite !lookup_insert_ne by done.
Qed.

Lemma head_filter_fmap (f : prow → prow) (P : prow → Prop)
    `{!∀ r, Decision (P r)} (l : list prow) :
  (∀ r, P (f r) ↔ P r) →
  head (filter P (f <$> l)) = f <$> head (filter P l).
Proof.
  intros Hf. induction l as [|r l IH]; [done|].
  rewrite fmap_cons, !filter_cons.
  destruct (decide (P (f r))) as [H1|H1], (decide (P r)) as [H2|H2].
  - done.
  - destruct H2. by apply (Hf r).
  - destruct H1. by apply (Hf r).
  - exact IH.
Qed.

Lemma add_column_append name f p base l :
  pcolumns p = base ++ l → (name, "") ∉ base → (name, "") ∉ l →
  pcolumns (add_column name f p) = base ++ (l ++ [(name, "")]).
Proof.
  intros Hp Hb Hl. unfold add_column. cbn. rewrite decide_False.
  - by rewrite Hp, app_assoc.
  - rewrite Hp, elem_of_app. by intros [?|?].
Qed.

Lemma PivotFrame_eq q cs rs :
  pcolumns q = cs → prows q = rs → q = {| pcolumns := cs; prows := rs |}.
Proof. destruct q. cbn. by intros -> ->. Qed.

(** A derived label is none of those before it. *)
Ltac fresh_label Hnew :=
  first
    [ apply Hnew; unfold derived_labels, derived_names; cbn; in_list
    | cbn; rewrite ?not_elem_of_cons; repeat split; try done;
      apply not_elem_of_nil ].

(** Lines 135-141 on a rectangular table that has the columns they read and
    none of the columns they write. *)
Lemma relative_columns_result p :
  rectangular p →
  (∀ v t, v ∈ ["dSOC_MgC_ha-1"; "N2O_MgN_ha-1"; "stover_yield_Mg_ha-1"] →
          t ∈ treatments → (v, t) ∈ pcolumns p) →
  (∀ c, c ∈ derived_labels → c ∉ pcolumns p) →
  relative_columns p
  = Some {| pcolumns := pcolumns p ++ derived_labels;
            prows := derive_row <$> prows p |}.
Proof.
  intros Hp Hbase Hnew. unfold relative_columns.
  do 6 assign_relative Hbase.
  rewrite ratio_eq.
  2:{ still_rectangular. }
  2:{ do 5 apply add_column_columns_old. apply add_column_columns_new. }
  2:{ still_column Hbase. }
  f_equal. apply PivotFrame_eq.
  - transitivity
      (pcolumns p
       ++ ((((((([] ++ [("dSOC_G25S_relative", "")])
                ++ [("dSOC_G50S_relative", "")])
               ++ [("dSOC_G75S_relative", "")])
              ++ [("dN2O_G25S_relative", "")])
             ++ [("dN2O_G50S_relative", "")])
            ++ [("dN2O_G75S_relative", "")])
           ++ [("dSOC_MgStover", "")])); [|reflexivity].
    repeat (apply add_column_append; [|fresh_label Hnew|fresh_label Hnew]).
    by rewrite app_nil_r.
  - cbn [prows add_column]. by rewrite <-!list_fmap_compose.
Qed.

(** X14. Lines 135-141 append the seven derived columns after those of the
    pivot and change nothing else: the rows keep their order, and every cell
    of a pivoted column is what [pivot] put there. *)
Theorem relative_columns_append (df : DataFrame gkey) (p : PivotFrame) :
  pivoted_df df = Some p →
  ∃ p0,
    pivot value_columns df = Some p0 ∧
    pcolumns p = pcolumns p0 ++ derived_labels ∧
    pindex <$> prows p = pindex <$> prows p0 ∧
    ∀ f v t, (v, t) ∈ pcolumns p0 → pcell p f v t = pcell p0 f v t.
Proof.
  intros Hp.
  destruct (proj1 (pivoted_df_is_Some df)) as [Hnd Hts]; [by eexists|].
  unfold pivoted_df in Hp.
  destruct (pivot value_columns df) as [p0|] eqn:Hp0; [|done].
  cbn in Hp. exists p0. split; [done|].
  assert (∀ c, c ∈ derived_labels → c ∉ pcolumns p0) as Hnew.
  { intros [n e] Hd Hc. apply (pivot_columns df p0 n e Hp0) in Hc as [Hv _].
    unfold derived_labels, derived_names in Hd. unfold value_columns in Hv.
    rewrite !fmap_cons, fmap_nil in Hd.
    rewrite !elem_of_cons, elem_of_nil in Hd.
    rewrite !elem_of_cons, elem_of_nil in Hv.
    destruct Hd as [[= -> ->]|[[= -> ->]|[[= -> ->]|[[= -> ->]|[[= -> ->]|
      [[= -> ->]|[[= -> ->]|[]]]]]]]];
      destruct Hv as [[=]|[[=]|[[=]|[[=]|[[=]|[]]]]]]. }
  rewrite relative_columns_result in Hp.
  - injection Hp as <-. cbn [pcolumns prows]. split; [done|]. split.
    + rewrite <-list_fmap_compose. by apply list_fmap_ext.
    + intros f v t Hc. unfold pcell. cbn [prows].
      rewrite (head_filter_fmap derive_row) by done.
      destruct (head (filter _ (prows p0))) as [r|]; [|done].
      cbn. apply derive_row_other. intros Hd. by apply (Hnew _ Hd).
  - intros r c Hr Hc. rewrite pivot_Some in Hp0 by done.
    injection Hp0 as <-. cbn [prows pcolumns] in *.
    apply list_elem_of_fmap in Hr as (f & -> & _).
    rewrite pivot_row_cell by done. by eexists.
  - intros v t Hv Ht. apply (pivot_columns df p0 _ _ Hp0).
    split; [by apply read_columns_values|by apply Hts].
  - exact Hnew.
Qed.

Lemma two_counties_pivoted : is_Some (pivoted_df two_counties).
Proof. apply (bool_decide_unpack _). vm_compute. exact I. Defined.

(** The table of two counties. *)
Lemma relative_columns_append_witness :
  ∃ p p0,
    pivoted_df two_counties = Some p ∧
    pivot value_columns two_counties = Some p0 ∧
    pcolumns p = pcolumns p0 ++ derived_labels ∧
    pindex <$> prows p = pindex <$> prows p0 ∧
    ∀ f v t, (v, t) ∈ pcolumns p0 → pcell p f v t = pcell p0 f v t.
Proof.
  destruct two_counties_pivoted as [p Hp].
  destruct (relative_columns_append two_counties p Hp) as (p0 & Hrest).
  by exists p, p0.
Defined.

(** ** The choropleth helper *)

(** X15. [fips_mapping] returns exactly when the number of bin edges is not
    negative; a negative number makes [np.linspace] raise. *)
Theorem fips_mapping_returns_iff (lo hi : Qc) (n : Z)
    (divergent reverse : bool) :
  is_Some (fips_mapping (lo, hi, n) divergent reverse) ↔ 0 <= n.
Proof.
  split.
  - intros [args Hargs]. unfold fips_mapping, linspace in Hargs.
    destruct (decide (n < 0)); [done|lia].
  - intros Hn. rewrite <-(Z2Nat.id n Hn).
    destruct (fips_mapping_nat lo hi (Z.to_nat n) divergent reverse)
      as [pts ->]. by eexists.
Qed.

(** The second call of the script, line 202, and a negative count. *)
Lemma fips_mapping_returns_iff_witness :
  is_Some (fips_mapping (lit (-0.05), lit 0.05, 41) true false) ∧
  fips_mapping (lit 2, lit 4, -1) false false = None.
Proof.
  split.
  - apply fips_mapping_returns_iff. lia.
  - destruct (fips_mapping (lit 2, lit 4, -1) false false) eqn:E; [|done].
    assert (0 <= -1) as Hn; [|lia].
    apply (fips_mapping_returns_iff (lit 2) (lit 4) (-1) false false).
    rewrite E. by eexists.
Defined.

Lemma fips_mapping_divergent (lo hi : Qc) (n : nat) (reverse : bool) :
  fips_mapping (lo, hi, Z.of_nat n) true reverse
  = Some {| binning_endpoints :=
              (λ i, (lo + Qc_of_Z (Z.of_nat i)
                          * ((hi - lo) / Qc_of_Z (Z.of_nat n - 1)))%Qc)
              <$> seq 0 n;
            round_legend_values :=
              if decide (hi < lit 10)%Qc then false else true;
            colorscale_points :=
              Some (let pts :=
                      (λ i, (0 + Qc_of_Z (Z.of_nat i)
                                 * ((1 - 0) / Qc_of_Z (Z.of_nat (S n) - 1)))%Qc)
                      <$> seq 0 (S n) in
                    if reverse then rev pts else pts) |}.
Proof.
  unfold fips_mapping. rewrite linspace_nat. cbn [mbind option_bind].
  replace (Z.of_nat n + 1) with (Z.of_nat (S n)) by lia.
  by rewrite linspace_nat.
Qed.

Lemma fips_mapping_sequential (lo hi : Qc) (n : nat) (reverse : bool) :
  fips_mapping (lo, hi, Z.of_nat n) false reverse
  = Some {| binning_endpoints :=
              (λ i, (lo + Qc_of_Z (Z.of_nat i)
                          * ((hi - lo) / Qc_of_Z (Z.of_nat n - 1)))%Qc)
              <$> seq 0 n;
            round_legend_values :=
              if decide (hi < lit 10)%Qc then false else true;
            colorscale_points := None |}.
Proof. unfold fips_mapping. by rewrite linspace_nat. Qed.

(** X16. A divergent map gets one colour more than it has bin edges,
    sampled from 0 upward to 1, and [reverse] reverses just that list; a map
    that is not divergent gets no colour scale of its own; the bin edges and
    the rounding flag depend on neither flag. *)
Theorem colorscale_points_spec (lo hi : Qc) (n : nat) :
  ∃ seq_args div_args rev_args pts,
    (∀ reverse,
       fips_mapping (lo, hi, Z.of_nat n) false reverse = Some seq_args) ∧
    fips_mapping (lo, hi, Z.of_nat n) true false = Some div_args ∧
    fips_mapping (lo, hi, Z.of_nat n) true true = Some rev_args ∧
    colorscale_points seq_args = None ∧
    colorscale_points div_args = Some pts ∧
    colorscale_points rev_args = Some (rev pts) ∧
    length pts = S (length (binning_endpoints div_args)) ∧
    head pts = Some 0%Qc ∧
    ((1 ≤ n)%nat → last pts = Some 1%Qc) ∧
    binning_endpoints div_args = binning_endpoints seq_args ∧
    binning_endpoints rev_args = binning_endpoints seq_args ∧
    round_legend_values div_args = round_legend_values seq_args ∧
    round_legend_values rev_args = round_legend_values seq_args.
Proof.
  eexists _, _, _, _.
  split; [intros reverse; apply fips_mapping_sequential|].
  split; [apply fips_mapping_divergent|].
  split; [apply fips_mapping_divergent|].
  cbn [colorscale_points binning_endpoints round_legend_values].
  split; [done|]. split; [done|]. split; [done|].
  split; [|split; [|split; [|done]]].
  - by rewrite !length_fmap, !length_seq.
  - rewrite head_lookup, list_lookup_fmap, lookup_seq_lt by lia.
    cbn [fmap option_fmap option_map Nat.add]. f_equal.
  - intros Hn. rewrite last_lookup, length_fmap, length_seq.
    rewrite list_lookup_fmap, lookup_seq_lt by lia. cbn [fmap option_fmap option_map].
    f_equal. replace (Z.of_nat (S n) - 1) with (Z.of_nat n) by lia.
    cbn [Init.Nat.pred Nat.add]. field.
    rewrite <-Z2Qc_inj_0. intros Hz%Z2Qc_inj. lia.
Qed.

(** The second call of the script, line 202: 41 edges, 42 colours. *)
Lemma colorscale_points_spec_witness :
  ∃ div_args pts,
    fips_mapping (lit (-0.05), lit 0.05, 41) true false = Some div_args ∧
    colorscale_points div_args = Some pts ∧
    length pts = 42%nat ∧
    last pts = Some 1%Qc.
Proof.
  destruct (colorscale_points_spec (lit (-0.05)) (lit 0.05) 41)
    as (s & d & r & pts & _ & Hd & _ & _ & Hpts & _ & Hlen & _ & Hlast & _).
  exists d, pts. split; [exact Hd|]. split; [exact Hpts|]. split.
  - rewrite Hlen. f_equal.
    assert (fips_mapping (lit (-0.05), lit 0.05, Z.of_nat 41) true false
            = Some d) as Hd' by exact Hd.
    rewrite fips_mapping_divergent in Hd'. injection Hd' as <-.
    vm_compute. reflexivity.
  - apply Hlast. lia.
Defined.

Lemma step_pos (lo hi : Qc) (n : nat) :
  (lo < hi)%Qc → (2 ≤ n)%nat →
  (0 < (hi - lo) / Qc_of_Z (Z.of_nat n - 1))%Qc.
Proof.
  intros Hlt Hn. apply Qcmult_pos_pos.
  - by apply Qclt_minus_iff in Hlt.
  - apply Qcinv_pos. rewrite <-Z2Qc_inj_0.
    apply (proj1 (Z2Qc_inj_lt 0 (Z.of_nat n - 1))). lia.
Qed.

(** X17. With [lo < hi] and at least two edges, the bin edges that
    [fips_mapping] hands over are strictly increasing and lie between [lo]
    and [hi]. *)
Theorem bin_edges_increasing (lo hi : Qc) (n : nat)
    (divergent reverse : bool) (args : choropleth_args) :
  (lo < hi)%Qc → (2 ≤ n)%nat →
  fips_mapping (lo, hi, Z.of_nat n) divergent reverse = Some args →
  (∀ i a b, binning_endpoints args !! i = Some a →
            binning_endpoints args !! S i = Some b → (a < b)%Qc) ∧
  (∀ x, x ∈ binning_endpoints args → (lo <= x)%Qc ∧ (x <= hi)%Qc).
Proof.
  intros Hlt Hn Hargs.
  destruct (fips_mapping_nat lo hi n divergent reverse) as [pts Heq].
  rewrite Heq in Hargs. injection Hargs as <-. cbn [binning_endpoints].
  pose proof (step_pos lo hi n Hlt Hn) as Hstep.
  set (step := ((hi - lo) / Qc_of_Z (Z.of_nat n - 1))%Qc) in *.
  split.
  - intros i a b Ha Hb.
    apply list_lookup_fmap_Some in Ha as (j & -> & Hj).
    apply list_lookup_fmap_Some in Hb as (k & -> & Hk).
    apply lookup_seq in Hj as [-> _]. apply lookup_seq in Hk as [-> _].
    cbn [Nat.add].
    replace (Z.of_nat (S i)) with (Z.of_nat i + 1) by lia.
    rewrite Z2Qc_inj_add, Z2Qc_inj_1.
    replace (lo + (Qc_of_Z (Z.of_nat i) + 1) * step)%Qc
      with ((lo + Qc_of_Z (Z.of_nat i) * step) + step)%Qc by ring.
    rewrite <-(Qcplus_0_r (lo + Qc_of_Z (Z.of_nat i) * step)) at 1.
    by apply Qcplus_lt_mono_l.
  - intros x (i & -> & Hi)%list_elem_of_fmap.
    apply elem_of_seq in Hi as [_ Hi]. cbn in Hi.
    assert (0 <= Qc_of_Z (Z.of_nat i))%Qc as Hi0.
    { rewrite <-Z2Qc_inj_0. apply (proj1 (Z2Qc_inj_le 0 (Z.of_nat i))). lia. }
    split.
    + rewrite <-(Qcplus_0_r lo) at 1. apply Qcplus_le_mono_l.
      apply Qcmult_nonneg_nonneg; [done|]. by apply Qclt_le_weak.
    + replace hi with (lo + Qc_of_Z (Z.of_nat n - 1) * step)%Qc.
      2:{ unfold step. field. rewrite <-Z2Qc_inj_0.
          intros Hz%Z2Qc_inj. lia. }
      apply Qcplus_le_mono_l. apply Qcmult_le_mono_nonneg_r.
      * by apply Qclt_le_weak.
      * apply (proj1 (Z2Qc_inj_le (Z.of_nat i) (Z.of_nat n - 1))). lia.
Qed.

(** The first call of the script, line 200. *)
Lemma bin_edges_increasing_witness :
  ∃ args,
    fips_mapping (lit 2, lit 4, 21) false false = Some args ∧
    (∀ i a b, binning_endpoints args !! i = Some a →
              binning_endpoints args !! S i = Some b → (a < b)%Qc) ∧
    (∀ x, x ∈ binning_endpoints args → (lit 2 <= x)%Qc ∧ (x <= lit 4)%Qc).
Proof.
  destruct (fips_mapping_nat (lit 2) (lit 4) 21 false false) as [pts Heq].
  eexists. split; [exact Heq|].
  apply (bin_edges_increasing (lit 2) (lit 4) 21 false false _).
  - apply (bool_decide_unpack _). vm_compute. exact I.
  - lia.
  - exact Heq.
Defined.

(** ** Where the script can raise *)

Lemma converted_has {K} (src tgt : string) (factor : Qc) (df : DataFrame K) :
  src ≠ tgt →
  Forall (λ r, is_Some (cols r !! tgt)) (convert_row src tgt factor <$> df).
Proof.
  intros Hne. apply Forall_fmap, Forall_forall. intros r _. cbn.
  rewrite lookup_delete_ne by done. rewrite lookup_insert_eq. by eexists.
Qed.

Lemma aggregate_and_merge_is_Some
    (corn_df soy_df stover_df soc_df n2o_df : DataFrame ykey) :
  Forall (λ r, is_Some (cols r !! "corn_yield_Mg_ha-1")) corn_df →
  Forall (λ r, is_Some (cols r !! "soy_yield_Mg_ha-1")) soy_df →
  Forall (λ r, is_Some (cols r !! "stover_yield_Mg_ha-1")) stover_df →
  Forall (λ r, is_Some (cols r !! "dSOC_MgC_ha-1")) soc_df →
  Forall (λ r, is_Some (cols r !! "N2O_MgN_ha-1")) n2o_df →
  is_Some (aggregate_and_merge corn_df soy_df stover_df soc_df n2o_df).
Proof.
  intros H1 H2 H3 H4 H5. unfold aggregate_and_merge.
  rewrite (groupby_mean_eq _ corn_df), (groupby_mean_eq _ soy_df),
    (groupby_mean_eq _ stover_df), (groupby_mean_eq _ soc_df),
    (groupby_mean_eq _ n2o_df) by done.
  by eexists.
Qed.

(** On tables that have their columns, lines 84-124 raise nothing. *)
Lemma merged_is_Some (i : inputs) : has_columns i → is_Some (merged i).
Proof.
  intros (_ & Hcorn & Hsoy & Hstover & Hsoc & Hn2o). unfold merged.
  unfold convert_corn, convert_soy, convert_stover, convert_soc, convert_n2o.
  rewrite !unit_convert_fmap by done. cbn [mbind option_bind].
  rewrite soc_annual_diff_annotate by by apply converted_has.
  cbn [mbind option_bind].
  apply aggregate_and_merge_is_Some; try by apply converted_has.
  apply Forall_forall. intros y [_ Hy]%list_elem_of_filter.
  by eapply annotate_has_dSOC.
Qed.

Lemma postprocess_merged (i : inputs) m :
  has_columns i → merged i = Some m →
  postprocess i
  = (p ← pivoted_df m;
     Some {| area_df := convert_row "area_acres" "area_ha"
                          constants.ha_per_ACRE <$> area_csv i;
             df := m; pivoted := p |}).
Proof.
  intros (Harea & _) Hm. unfold postprocess, merged in *.
  unfold convert_area. rewrite unit_convert_fmap by done.
  cbn [mbind option_bind].
  destruct (convert_corn _) as [corn|]; [|done].
  destruct (convert_soy _) as [soy|]; [|done].
  destruct (convert_stover _) as [stover|]; [|done].
  destruct (convert_soc _) as [soc|]; [|done].
  destruct (convert_n2o _) as [n2o|]; [|done].
  cbn [mbind option_bind] in *.
  destruct (soc_annual_diff soc) as [dsoc|]; [|done].
  cbn [mbind option_bind] in *. by rewrite Hm.
Qed.

(** X18. On six tables that have the columns the script converts, nothing
    raises before line 135: the merged table exists and has each pair once,
    so [pivot] accepts it; and the script runs to the end exactly when each
    of the treatments G, G25S, G50S, G75S occurs in the merged table. *)
Theorem postprocess_returns_iff (i : inputs) :
  has_columns i →
  ∃ m,
    merged i = Some m ∧
    NoDup (key <$> m) ∧
    is_Some (pivot value_columns m) ∧
    (is_Some (postprocess i) ↔
     ∀ t, t ∈ treatments → treatment_occurs m t) ∧
    (∀ o, postprocess i = Some o → df o = m).
Proof.
  intros Hi. destruct (merged_is_Some i Hi) as [m Hm]. exists m.
  assert (NoDup (key <$> m)) as Hnd.
  { unfold merged in Hm.
    destruct (convert_corn _) as [corn|]; [|done].
    destruct (convert_soy _) as [soy|]; [|done].
    destruct (convert_stover _) as [stover|]; [|done].
    destruct (convert_soc _) as [soc|]; [|done].
    destruct (convert_n2o _) as [n2o|]; [|done].
    cbn [mbind option_bind] in Hm.
    destruct (soc_annual_diff soc) as [dsoc|]; [|done].
    cbn [mbind option_bind] in Hm.
    by eapply aggregate_and_merge_NoDup. }
  split; [done|]. split; [done|]. split.
  { unfold pivot. rewrite decide_True by done. by eexists. }
  rewrite (postprocess_merged i m Hi Hm). split.
  - split.
    + intros [o Ho]. destruct (pivoted_df m) as [p|] eqn:Hp; [|done].
      apply (pivoted_df_is_Some m). by eexists.
    + intros Hts. destruct (proj2 (pivoted_df_is_Some m)) as [p Hp]; [done|].
      rewrite Hp. by eexists.
  - intros o Ho. destruct (pivoted_df m) as [p|]; [|done].
    cbn in Ho. by injection Ho as <-.
Qed.

Lemma one_county_has_columns : has_columns one_county.
Proof.
  unfold has_columns, one_county. cbn.
  repeat split; repeat constructor; by eexists.
Defined.

(** The tables of one county under the four treatments. *)
Lemma postprocess_returns_iff_witness :
  ∃ m,
    merged one_county = Some m ∧
    NoDup (key <$> m) ∧
    is_Some (pivot value_columns m) ∧
    (is_Some (postprocess one_county) ↔
     ∀ t, t ∈ treatments → treatment_occurs m t) ∧
    (∀ o, postprocess one_county = Some o → df o = m).
Proof. apply postprocess_returns_iff. exact one_county_has_columns. Defined.
